(** * Yendor scheduler: a shallow embedding of [Yendor.Scheduler]

    The development embeds [src/yendor/scheduler.ts].  A [TimedEntity] is a
    JavaScript object, so it is modelled by its identity (a natural number)
    and a shared store mapping identities to the [waitTime] field.  The
    method [update()] of an entity is an arbitrary side-effecting procedure:
    it is a parameter [update : TimedEntity -> World -> World] acting on the
    whole world (every wait time, the scheduler's queue, its flag and the
    rest of the program's state).

    [waitTime] is a JavaScript [number]; it is modelled by an integer of
    [Z], which is exact for the integral tick counts the scheduler is used
    with. *)

From Stdlib Require Import ZArith List Lia Bool Permutation.
From stdpp Require Import base numbers list sorting.

(** ** The priority queue *)

(** Modelled from the spec: the class [BinaryHeap] (file [heap.ts]) is used
    by the scheduler but is not among the sources.  Section 4.1 of the
    specification describes it as a standard binary min-heap over a dense
    array whose comparisons always call the key extractor: sift-up on
    insert, sift-down on pop, [pushAll] as repeated [push], [peek(index)]
    reading the array at the given rank, [pop]/[peek] giving nothing on an
    empty queue. *)
Module BinaryHeap.
Section Heap.
Context {T : Type} (scoreFunction : T -> Z).

(** Modelled from the spec: [size()], the number of elements queued. *)
Definition size (content : list T) : nat := length content.

(** Modelled from the spec: [isEmpty()], the emptiness query. *)
Definition isEmpty (content : list T) : bool :=
  match content with [] => true | _ :: _ => false end.

(** Modelled from the spec: [peek(index)], the element at the given rank
    of the array, without removing it; [peek()] is [peek(0)], the element of
    minimum key, and nothing when the queue is empty. *)
Definition peek (content : list T) (index : nat) : option T :=
  content !! index.

(** Modelled from the spec: the sift-up of a standard binary min-heap.
    One round exchanges the element at rank [n] with its parent while the
    element's score is strictly smaller. *)
Fixpoint bubbleUp_loop (fuel : nat) (content : list T) (element : T)
    (n : nat) : list T :=
  match fuel with
  | O => content
  | S fuel' =>
      if Nat.eqb n 0 then content
      else
        let parentN := (n + 1) / 2 - 1 in
        match content !! parentN with
        | Some parent =>
            if (scoreFunction element <? scoreFunction parent)%Z
            then bubbleUp_loop fuel'
                   (<[n := parent]> (<[parentN := element]> content))
                   element parentN
            else content
        | None => content
        end
  end.

(** Modelled from the spec: sift-up from rank [n]; the element rises at
    most [n] times. *)
Definition bubbleUp (content : list T) (n : nat) : list T :=
  match content !! n with
  | Some element => bubbleUp_loop n content element n
  | None => content
  end.

(** Modelled from the spec: [push(element)], append then sift-up. *)
Definition push (element : T) (content : list T) : list T :=
  bubbleUp (content ++ [element]) (length content).

(** Modelled from the spec: [pushAll(elements)], equivalent to repeated
    [push] in the order of the array given. *)
Definition pushAll (elements : list T) (content : list T) : list T :=
  fold_left (fun c e => push e c) elements content.

(** Modelled from the spec: the rank the sift-down of a standard binary
    min-heap exchanges with, the child of [n] with the smallest score if
    that score is strictly below the element's. *)
Definition swap_target (content : list T) (elemScore : Z) (n : nat)
    : option nat :=
  let child2N := (n + 1) * 2 in
  let child1N := child2N - 1 in
  let swap1 :=
    match content !! child1N with
    | Some child1 =>
        if (scoreFunction child1 <? elemScore)%Z
        then Some (child1N, scoreFunction child1) else None
    | None => None
    end in
  match content !! child2N with
  | Some child2 =>
      let bound := match swap1 with
                   | Some (_, child1Score) => child1Score
                   | None => elemScore
                   end in
      if (scoreFunction child2 <? bound)%Z
      then Some child2N else option_map fst swap1
  | None => option_map fst swap1
  end.

(** Modelled from the spec: the sift-down loop, exchanging the element
    with the child chosen until no child is strictly smaller. *)
Fixpoint sinkDown_loop (fuel : nat) (content : list T) (element : T)
    (n : nat) : list T :=
  match fuel with
  | O => content
  | S fuel' =>
      match swap_target content (scoreFunction element) n with
      | None => content
      | Some swap =>
          match content !! swap with
          | Some child =>
              sinkDown_loop fuel'
                (<[swap := element]> (<[n := child]> content)) element swap
          | None => content
          end
      end
  end.

(** Modelled from the spec: sift-down from rank [n]; the rank grows at
    every round, so the length of the array bounds the rounds. *)
Definition sinkDown (content : list T) (n : nat) : list T :=
  match content !! n with
  | Some element => sinkDown_loop (length content) content element n
  | None => content
  end.

(** Modelled from the spec: [pop()] removes and returns the element of
    minimum key, nothing when the queue is empty.  The last element is
    taken off the array, and when something remains it is written at rank 0
    and sunk. *)
Definition pop (content : list T) : option T * list T :=
  match content !! 0, last content with
  | Some result, Some end_ =>
      let rest := removelast content in
      if isEmpty rest then (Some result, rest)
      else (Some result, sinkDown (<[0 := end_]> rest) 0)
  | _, _ => (None, content)
  end.

(** The heap property: the score of every node is at most the scores of
    its two children, at ranks [2i+1] and [2i+2]. *)
Definition is_child (i j : nat) : Prop := j = 2 * i + 1 \/ j = 2 * i + 2.

Definition heap_ok (content : list T) : Prop :=
  forall i j x y, is_child i j ->
    content !! i = Some x -> content !! j = Some y ->
    (scoreFunction x <= scoreFunction y)%Z.

(** The property while the element at rank [n] is sinking: every pair not
    headed by [n] is in order, and the parent of [n] is below the
    children of [n]. *)
Definition heap_except (n : nat) (content : list T) : Prop :=
  (forall i j x y, i <> n -> is_child i j ->
     content !! i = Some x -> content !! j = Some y ->
     (scoreFunction x <= scoreFunction y)%Z) /\
  (forall p j x y, is_child p n -> is_child n j ->
     content !! p = Some x -> content !! j = Some y ->
     (scoreFunction x <= scoreFunction y)%Z).

(** The property while the element at rank [n] is rising: every pair not
    ending at [n] is in order, and the parent of [n] is below the
    children of [n]. *)
Definition heap_below (n : nat) (content : list T) : Prop :=
  (forall i j x y, j <> n -> is_child i j ->
     content !! i = Some x -> content !! j = Some y ->
     (scoreFunction x <= scoreFunction y)%Z) /\
  (forall p j x y, is_child p n -> is_child n j ->
     content !! p = Some x -> content !! j = Some y ->
     (scoreFunction x <= scoreFunction y)%Z).

(** The heap property as a check that runs. *)
Definition heap_okb (content : list T) : bool :=
  forallb
    (fun j => match content !! ((j - 1) / 2), content !! j with
              | Some x, Some y => (scoreFunction x <=? scoreFunction y)%Z
              | _, _ => true
              end)
    (seq 1 (length content - 1)).

End Heap.
End BinaryHeap.

(** ** The scheduler *)

(** A timed entity is known by its identity. *)
Definition TimedEntity := nat.

Section Scheduler.
(** [Env] is whatever state of the program lies outside the scheduler
    and the wait times; [update()] may read and write it. *)
Context {Env : Type}.

Record World : Type := mkWorld {
  waitTime : TimedEntity -> Z;      (* entity.waitTime *)
  entities : list TimedEntity;      (* Scheduler.entities, the heap's array *)
  paused : bool;                    (* Scheduler.paused *)
  env : Env
}.

Definition set_entities (s : World) (content : list TimedEntity) : World :=
  mkWorld (waitTime s) content (paused s) (env s).

Definition set_waitTime (s : World) (entity : TimedEntity) (v : Z) : World :=
  mkWorld (fun x => if Nat.eqb x entity then v else waitTime s x)
          (entities s) (paused s) (env s).

Definition set_paused (s : World) (b : bool) : World :=
  mkWorld (waitTime s) (entities s) b (env s).

(** The constructor's key extractor, [entity => entity.waitTime]. *)
Definition score (s : World) : TimedEntity -> Z := waitTime s.

Definition add (entity : TimedEntity) (s : World) : World :=
  set_entities s (BinaryHeap.push (score s) entity (entities s)).

Definition addAll (l : list TimedEntity) (s : World) : World :=
  set_entities s (BinaryHeap.pushAll (score s) l (entities s)).

Definition clear (s : World) : World := set_entities s [].

Definition pause (s : World) : World := set_paused s true.
Definition resume (s : World) : World := set_paused s false.
Definition isPaused (s : World) : bool * World := (paused s, s).

Variable update : TimedEntity -> World -> World.

(** The bulk decrement, [for (i = 0; i < len; ++i)
    this.entities.peek(i).waitTime -= elapsed].  The ranks visited are
    those of the array, which the loop does not change, so [peek(i)]
    always finds an entity. *)
Definition decrease_at (elapsed : Z) (s : World) (i : nat) : World :=
  match BinaryHeap.peek (entities s) i with
  | Some entity => set_waitTime s entity (waitTime s entity - elapsed)
  | None => s
  end.

Definition decrease_all (elapsed : Z) (s : World) : World :=
  fold_left (decrease_at elapsed)
            (seq 0 (BinaryHeap.size (entities s))) s.

(** The same decrement, entity by entity along the array. *)
Definition decrease_list (elapsed : Z) (l : list TimedEntity) (s : World)
    : World :=
  fold_left (fun s e => set_waitTime s e (waitTime s e - elapsed)) l s.

(** [if (entity.waitTime <= oldWaitTime) entity.waitTime = oldWaitTime + 1],
    the enforcement that avoids a deadlock. *)
Definition enforce (entity : TimedEntity) (oldWaitTime : Z) (s : World)
    : World :=
  if (waitTime s entity <=? oldWaitTime)%Z
  then set_waitTime s entity (oldWaitTime + 1)
  else s.

(** The body of the activation loop for the entity just peeked: pop,
    remember the wait time, update, enforce the wait time. *)
Definition activate_one (entity : TimedEntity) (s : World) : World :=
  let s1 := set_entities s (snd (BinaryHeap.pop (score s) (entities s))) in
  let oldWaitTime := waitTime s1 entity in
  let s2 := update entity s1 in
  enforce entity oldWaitTime s2.

(** The activation loop.  It returns the world and [updatedEntities];
    [None] means that the given number of iterations was not enough. *)
Fixpoint activate (fuel : nat) (s : World) (updatedEntities : list TimedEntity)
    : option (World * list TimedEntity) :=
  match BinaryHeap.peek (entities s) 0 with
  | Some entity =>
      if (waitTime s entity <=? 0)%Z then
        match fuel with
        | O => None
        | S fuel' =>
            activate fuel' (activate_one entity s) (updatedEntities ++ [entity])
        end
      else Some (s, updatedEntities)
  | None => Some (s, updatedEntities)
  end.

(** The state on which the activation loop starts. *)
Definition elapse (s : World) : World :=
  match BinaryHeap.peek (entities s) 0 with
  | Some first =>
      let elapsed := waitTime s first in
      if (elapsed >? 0)%Z then decrease_all elapsed s else s
  | None => s
  end.

Definition reinsert (r : World * list TimedEntity) : World * list TimedEntity :=
  (set_entities (fst r)
     (BinaryHeap.pushAll (score (fst r)) (snd r) (entities (fst r))),
   snd r).

(** [run] returns the new world together with the entities it updated,
    in the order of their activation. *)
Definition run (fuel : nat) (s : World) : option (World * list TimedEntity) :=
  if paused s || BinaryHeap.isEmpty (entities s) then Some (s, [])
  else option_map reinsert (activate fuel (elapse s) []).

(** Any number of [run()] calls in a row. *)
Fixpoint run_repeat (fuel n : nat) (s : World) : option World :=
  match n with
  | O => Some s
  | S n' =>
      match run fuel s with
      | Some (s', _) => run_repeat fuel n' s'
      | None => None
      end
  end.

(** *** What an [update()] may be assumed to respect *)

(** [update()] adds no entity to the queue (it may remove some). *)
Definition update_no_insert : Prop :=
  forall entity s, entities (update entity s) ⊆+ entities s.

(** [update()] neither adds nor removes an entity. *)
Definition update_keeps_members : Prop :=
  forall entity s, entities (update entity s) ≡ₚ entities s.

(** [update()] does not touch the queue at all. *)
Definition update_keeps_queue : Prop :=
  forall entity s, entities (update entity s) = entities s.

(** [update()] sets no wait time but that of its own entity. *)
Definition update_own_waitTime : Prop :=
  forall entity s other, other <> entity ->
    waitTime (update entity s) other = waitTime s other.

End Scheduler.

(** The scheduler's queue is a heap for the current wait times. *)
Definition queue_ok {Env} (s : @World Env) : Prop :=
  BinaryHeap.heap_ok (waitTime s) (entities s).

(** [m] is the smallest wait time in the queue. *)
Definition is_min_waitTime {Env} (s : @World Env) (m : Z) : Prop :=
  (exists e, e ∈ entities s /\ waitTime s e = m) /\
  (forall e, e ∈ entities s -> (m <= waitTime s e)%Z).

(** The entities of the queue whose wait time is zero or less. *)
Definition eligible {Env} (s : @World Env) : list TimedEntity :=
  filter (fun e => (waitTime s e <= 0)%Z) (entities s).

(** [a] is due no later than [b]. *)
Definition waitTime_le {Env} (s : @World Env) (a b : TimedEntity) : Prop :=
  (waitTime s a <= waitTime s b)%Z.

(** ** Scenarios *)

(** Entity [i] starts with the [i]-th wait time of the list. *)
Definition fresh (waits : list Z) : @World unit :=
  mkWorld (fun e => nth e waits 0%Z) [] false tt.

Definition entityA : TimedEntity := 0.
Definition entityB : TimedEntity := 1.
Definition entityC : TimedEntity := 2.

(** A(3), B(1), C(5), added in this order; B's [update()] sets its wait
    time to 2, the others' do nothing. *)
Definition scenario : @World unit :=
  add entityC (add entityB (add entityA (fresh [3; 1; 5]%Z))).

Definition scenario_update (e : TimedEntity) (s : @World unit) : @World unit :=
  if Nat.eqb e entityB then set_waitTime s entityB 2 else s.

(** One entity whose [update()] does nothing. *)
Definition lone : @World unit := add entityA (fresh [1]%Z).
Definition idle_update (e : TimedEntity) (s : @World unit) : @World unit := s.

(** A(-2) and B(5); an [update()] sets the entity's own wait time to 3. *)
Definition overdue : @World unit :=
  add entityB (add entityA (fresh [-2; 5]%Z)).
Definition three_update (e : TimedEntity) (s : @World unit) : @World unit :=
  set_waitTime s e 3.

(** A(4) and B(4): both reach 0 in the same pass. *)
Definition tied : @World unit :=
  add entityB (add entityA (fresh [4; 4]%Z)).

(** ** Statements that the code does not meet *)

(** "An entity updated by a [run()] call is not updated by the next one." *)
Definition rests_for_a_run {Env} (update : TimedEntity -> @World Env -> @World Env)
    (fuel : nat) (s : @World Env) : Prop :=
  forall s1 updated1 s2 updated2,
    run update fuel s = Some (s1, updated1) ->
    run update fuel s1 = Some (s2, updated2) ->
    forall e, e ∈ updated1 -> e ∉ updated2.

(** "An entity of the queue that is not updated ends with its wait time
    minus the minimum of the queue, whatever the sign of that minimum." *)
Definition survivor_minus_minimum {Env}
    (update : TimedEntity -> @World Env -> @World Env)
    (fuel : nat) (s : @World Env) : Prop :=
  forall s' updated m,
    run update fuel s = Some (s', updated) ->
    is_min_waitTime s m ->
    forall e, e ∈ entities s -> e ∉ updated ->
      waitTime s' e = (waitTime s e - m)%Z.

(** "On a scheduler that is not paused and whose queue is not empty,
    [run()] reads the minimum wait time of the queue and, when it is
    strictly positive, subtracts it from the wait time of every entity of
    the queue before the activation loop starts." *)
Definition reads_and_subtracts_minimum {Env} (s : @World Env) : Prop :=
  paused s = false -> entities s <> [] ->
  exists first,
    BinaryHeap.peek (entities s) 0 = Some first /\
    is_min_waitTime s (waitTime s first) /\
    ((0 < waitTime s first)%Z ->
     forall e, e ∈ entities s ->
       waitTime (elapse s) e = (waitTime s e - waitTime s first)%Z).

(** The same entity, at wait time 3, added twice. *)
Definition twice : @World unit := add entityA (add entityA (fresh [3]%Z)).

(** A(1) and B(5) added, then [B.waitTime = 0] assigned from outside while
    B is queued. *)
Definition disordered : @World unit :=
  set_waitTime (add entityB (add entityA (fresh [1; 5]%Z))) entityB 0.

(** "Every entity whose wait time is zero or less after the decrement is
    updated in that same [run()] call." *)
Definition activates_all_eligible {Env}
    (update : TimedEntity -> @World Env -> @World Env)
    (fuel : nat) (s : @World Env) : Prop :=
  forall s' updated,
    run update fuel s = Some (s', updated) ->
    forall e, e ∈ entities s -> (waitTime (elapse s) e <= 0)%Z ->
      e ∈ updated.

(** The [update()] of A stuns B: it sets the wait time of B to 10 (and its
    own to 3); the [update()] of B sets its own wait time to 3. *)
Definition stun_update (e : TimedEntity) (s : @World unit) : @World unit :=
  if Nat.eqb e entityA
  then set_waitTime (set_waitTime s entityB 10) entityA 3
  else set_waitTime s e 3.

(** "When no [update()] adds to the queue, [run()] updates at most as many
    entities as have a wait time of zero or less after the decrement." *)
Definition bounded_by_eligible {Env}
    (update : TimedEntity -> @World Env -> @World Env)
    (fuel : nat) (s : @World Env) : Prop :=
  update_no_insert update ->
  forall s' updated,
    run update fuel s = Some (s', updated) ->
    length updated <= length (eligible (elapse s)).

(** A(1) and B(5); the [update()] of A hastes B: it sets the wait time of
    B to -1 (and its own to 3); the [update()] of B sets its own wait time
    to 3.  No [update()] touches the queue. *)
Definition hasted : @World unit :=
  add entityB (add entityA (fresh [1; 5]%Z)).

Definition haste_update (e : TimedEntity) (s : @World unit) : @World unit :=
  if Nat.eqb e entityA
  then set_waitTime (set_waitTime s entityB (-1)) entityA 3
  else set_waitTime s e 3.

(** ** Positions *)

(** The class [Position] of the console cells (column, row).  The
    coordinates are JavaScript numbers holding cell indices; they are
    modelled by integers.  [Position.distance] takes a square root and is
    left out. *)
Module Position.

Record Position : Type := mkPosition { x : Z; y : Z }.

(** [constructor(_x = 0, _y = 0)]: an argument left out is 0. *)
Definition constructor (_x _y : option Z) : Position :=
  mkPosition (default 0%Z _x) (default 0%Z _y).

(** [moveTo(x, y)] overwrites both coordinates. *)
Definition moveTo (this : Position) (x y : Z) : Position := mkPosition x y.

Definition equals (this pos : Position) : bool :=
  (x this =? x pos)%Z && (y this =? y pos)%Z.

(** The static arrays that help scan the adjacent cells. *)
Definition TDX : list Z := [-1; 1; 0; 0; -1; 1; -1; 1]%Z.
Definition TDY : list Z := [0; 0; -1; 1; -1; -1; 1; 1]%Z.

(** The body of the loop of [getAdjacentCells] at index [i]. *)
Definition scan (this : Position) (mapWidth mapHeight : Z)
    (adjacents : list Position) (i : nat) : list Position :=
  match TDX !! i, TDY !! i with
  | Some dx, Some dy =>
      let x := (x this + dx)%Z in
      if (0 <=? x)%Z && (x <? mapWidth)%Z then
        let y := (y this + dy)%Z in
        if (0 <=? y)%Z && (y <? mapHeight)%Z
        then adjacents ++ [mkPosition x y]
        else adjacents
      else adjacents
  | _, _ => adjacents
  end.

(** [getAdjacentCells(mapWidth, mapHeight, diagonals)]; the caller that
    leaves [diagonals] out gets [true]. *)
Definition getAdjacentCells (this : Position) (mapWidth mapHeight : Z)
    (diagonals : bool) : list Position :=
  let len := if diagonals then 8 else 4 in
  fold_left (scan this mapWidth mapHeight) (seq 0 len) [].

(** A cell of the map. *)
Definition on_map (mapWidth mapHeight : Z) (p : Position) : Prop :=
  (0 <= x p < mapWidth)%Z /\ (0 <= y p < mapHeight)%Z.

(** The eight neighbours, and the four that share a side. *)
Definition touches (p q : Position) : Prop :=
  p <> q /\ (Z.abs (x q - x p) <= 1)%Z /\ (Z.abs (y q - y p) <= 1)%Z.

Definition shares_side (p q : Position) : Prop :=
  (Z.abs (x q - x p) + Z.abs (y q - y p) = 1)%Z.

(** The offsets read by the first [len] rounds, and the cell each gives. *)
Definition offsets (len : nat) : list (Z * Z) :=
  take len (zip TDX TDY).

Definition shifted (this : Position) (d : Z * Z) : Position :=
  mkPosition (x this + fst d) (y this + snd d).

(** What one round of the scan adds. *)
Definition cell (this : Position) (i : nat) : list Position :=
  match TDX !! i, TDY !! i with
  | Some dx, Some dy => [shifted this (dx, dy)]
  | _, _ => []
  end.

Definition on_mapb (mapWidth mapHeight : Z) (p : Position) : bool :=
  ((0 <=? x p)%Z && (x p <? mapWidth)%Z) &&
  ((0 <=? y p)%Z && (y p <? mapHeight)%Z).

End Position.

(** ** The lights of the dungeon shader *)

(** [LightDungeonShader] keeps, for each render mode, the array of the
    actors whose light is on.  An actor is known by its identity; of the
    actor the handler reads whether it has a light, the render mode of that
    light, whether it can be activated and, if so, whether it is active.
    The enumeration [LightRenderMode] has the two modes that [initLights]
    gives an array to. *)
Module Lights.

Inductive LightRenderMode : Type := ADDITIVE | MAX.

#[global] Instance LightRenderMode_eq_dec : EqDecision LightRenderMode.
Proof. solve_decision. Defined.

Definition Actor := nat.

Record ActorState : Type := mkActorState {
  light : option LightRenderMode;   (* actor.light.options.renderMode *)
  activable : option bool           (* actor.activable.isActive() *)
}.

(** [this.lights], indexed by render mode. *)
Record Lights : Type := mkLights {
  additive : list Actor;
  maximum : list Actor
}.

Definition get (lights : Lights) (mode : LightRenderMode) : list Actor :=
  match mode with ADDITIVE => additive lights | MAX => maximum lights end.

Definition put (lights : Lights) (mode : LightRenderMode) (l : list Actor)
    : Lights :=
  match mode with
  | ADDITIVE => mkLights l (maximum lights)
  | MAX => mkLights (additive lights) l
  end.

Definition initLights : Lights := mkLights [] [].

Definition onNewGame (lights : Lights) : Lights := initLights.

(** [Array.prototype.indexOf]: the first index holding the actor, [None]
    for -1. *)
Fixpoint indexOf (l : list Actor) (actor : Actor) : option nat :=
  match l with
  | [] => None
  | a :: l' =>
      if Nat.eqb a actor then Some 0 else option_map S (indexOf l' actor)
  end.

(** [onLightOnoff(actor)] maintains the list of the active lights. *)
Definition onLightOnoff (lights : Lights) (actor : Actor) (st : ActorState)
    : Lights :=
  match light st with
  | None => lights
  | Some renderMode =>
      let isOn := match activable st with
                  | None => true
                  | Some isActive => isActive
                  end in
      if isOn then
        match indexOf (get lights renderMode) actor with
        | None => put lights renderMode (get lights renderMode ++ [actor])
        | Some _ => lights
        end
      else
        match indexOf (get lights renderMode) actor with
        | Some idx => put lights renderMode (delete idx (get lights renderMode))
        | None => lights
        end
  end.

(** The events received since the shader was built. *)
Definition replay (events : list (Actor * ActorState)) : Lights :=
  fold_left (fun lights ev => onLightOnoff lights (fst ev) (snd ev))
            events initLights.

(** Whether the light of the actor is to be rendered. *)
Definition is_on (st : ActorState) : bool :=
  match activable st with None => true | Some isActive => isActive end.

End Lights.

(** ** The light level of a cell *)

(** [LightDungeonShader.getCellLightLevel] and [canIdentifyActor].  What
    they take from elsewhere is a parameter: the colours, [!lightCol] on a
    colour that is there, [Core.ColorUtils.computeIntensity], the
    comparison [>] of the numbers it returns, and the constant
    [Constants.PENUMBRA_THRESHOLD].  The light map is [None] while it has
    not been built; a cell reads [None] when nothing was written to it. *)
Module LightLevel.

Inductive CellLightLevel : Type := DARKNESS | PENUMBRA | LIGHT.

Section Level.
Context {Color Intensity : Type}.
Variable falsy : Color -> bool.
Variable computeIntensity : Color -> Intensity.
Variable gt : Intensity -> Intensity -> bool.
Variable PENUMBRA_THRESHOLD : Intensity.
Variable zero : Intensity.

Definition LightMap : Type := option (Z -> Z -> option Color).

Definition getCellLightLevel (lightMap : LightMap) (x y : Z)
    : CellLightLevel :=
  match lightMap with
  | None => DARKNESS
  | Some cells =>
      match cells x y with
      | None => DARKNESS
      | Some lightCol =>
          if falsy lightCol then DARKNESS
          else
            let intensity := computeIntensity lightCol in
            if gt intensity PENUMBRA_THRESHOLD then LIGHT
            else if gt intensity zero then PENUMBRA
            else DARKNESS
      end
  end.

(** [canIdentifyActor(actor)], from [actor.fovOnly] and [actor.pos];
    [None] is the [TypeError] of reading a light map that is not there. *)
Definition canIdentifyActor (lightMap : LightMap) (fovOnly : bool)
    (x y : Z) : option bool :=
  if negb fovOnly then Some true
  else
    match lightMap with
    | None => None
    | Some cells =>
        match cells x y with
        | None => Some false
        | Some lightCol =>
            if falsy lightCol then Some false
            else Some (gt (computeIntensity lightCol) PENUMBRA_THRESHOLD)
        end
    end.

Definition is_light (level : CellLightLevel) : bool :=
  match level with LIGHT => true | _ => false end.

(** [this.lightMap[x][y] = c]. *)
Definition write (cells : Z -> Z -> option Color) (x y : Z) (c : Color)
    : Z -> Z -> option Color :=
  fun x' y' => if (x' =? x)%Z && (y' =? y)%Z then Some c else cells x' y'.

(** The number 0 that [clearLightmap] writes, as a colour. *)
Variable black : Color.

(** The inner loop of [clearLightmap], [for (y = 0; y < h; ++y)]. *)
Definition clearColumn (cells : Z -> Z -> option Color) (x : Z) (h : Z)
    : Z -> Z -> option Color :=
  fold_left (fun cells y => write cells x (Z.of_nat y) black)
            (seq 0 (Z.to_nat h)) cells.

(** [clearLightmap()], with the width and height of the map; the light
    map has a column for every [x] below the width, as [prepareFrame]
    builds it. *)
Definition clearLightmap (cells : Z -> Z -> option Color) (w h : Z)
    : Z -> Z -> option Color :=
  fold_left (fun cells x => clearColumn cells (Z.of_nat x) h)
            (seq 0 (Z.to_nat w)) cells.

End Level.
End LightLevel.

(** * Facts about the priority queue *)

Module HeapFacts.
Import BinaryHeap.
Section Facts.
Context {T : Type} (f : T -> Z).

Lemma lookup_exchange (l : list T) n sw c e i :
  n < length l -> sw < length l ->
  (<[sw := e]> (<[n := c]> l)) !! i =
    if decide (i = sw) then Some e
    else if decide (i = n) then Some c else l !! i.
Proof.
  intros Hn Hsw.
  destruct (decide (i = sw)) as [->|Hi].
  - apply list_lookup_insert_eq. by rewrite length_insert.
  - rewrite list_lookup_insert_ne by congruence.
    destruct (decide (i = n)) as [->|Hi'].
    + by apply list_lookup_insert_eq.
    + apply list_lookup_insert_ne. congruence.
Qed.

Lemma exchange_Permutation (l : list T) n sw c e :
  l !! n = Some e -> l !! sw = Some c ->
  <[sw := e]> (<[n := c]> l) ≡ₚ l.
Proof.
  intros Hn Hsw.
  pose proof (lookup_lt_Some _ _ _ Hn) as Ln.
  pose proof (lookup_lt_Some _ _ _ Hsw) as Lsw.
  apply Permutation_inj. split; [by rewrite !length_insert|].
  exists (fun i => if decide (i = sw) then n
                   else if decide (i = n) then sw else i).
  split.
  - intros i j. repeat case_decide; intros; subst; congruence.
  - intros i. rewrite lookup_exchange by done.
    repeat case_decide; subst; congruence.
Qed.

Lemma swap_target_Some (content : list T) es n sw :
  swap_target f content es n = Some sw ->
  is_child n sw /\
  exists c, content !! sw = Some c /\ (f c < es)%Z /\
    forall j y, is_child n j -> content !! j = Some y -> (f c <= f y)%Z.
Proof.
  unfold swap_target, is_child.
  replace ((n + 1) * 2 - 1) with (2 * n + 1) by lia.
  replace ((n + 1) * 2) with (2 * n + 2) by lia.
  destruct (content !! (2 * n + 1)) as [c1|] eqn:H1;
    destruct (content !! (2 * n + 2)) as [c2|] eqn:H2; cbn [option_map fst].
  - destruct (Z.ltb_spec (f c1) es) as [L1|L1]; cbn [option_map fst].
    + destruct (Z.ltb_spec (f c2) (f c1)) as [L2|L2]; cbn [option_map fst];
        intros [= <-]; (split; [lia|]).
      * exists c2. repeat split; [done|lia|].
        intros j y [->| ->] Hy; simplify_eq; lia.
      * exists c1. repeat split; [done|lia|].
        intros j y [->| ->] Hy; simplify_eq; lia.
    + destruct (Z.ltb_spec (f c2) es) as [L2|L2]; cbn [option_map fst]; [|done].
      intros [= <-]. split; [lia|].
      exists c2. repeat split; [done|lia|].
      intros j y [->| ->] Hy; simplify_eq; lia.
  - destruct (Z.ltb_spec (f c1) es) as [L1|L1]; cbn [option_map fst]; [|done].
    intros [= <-]. split; [lia|].
    exists c1. repeat split; [done|lia|].
    intros j y [->| ->] Hy; simplify_eq; lia.
  - apply lookup_ge_None in H1. apply lookup_lt_Some in H2. lia.
  - done.
Qed.

Lemma swap_target_None (content : list T) es n :
  swap_target f content es n = None ->
  forall j y, is_child n j -> content !! j = Some y -> (es <= f y)%Z.
Proof.
  unfold swap_target, is_child.
  replace ((n + 1) * 2 - 1) with (2 * n + 1) by lia.
  replace ((n + 1) * 2) with (2 * n + 2) by lia.
  destruct (content !! (2 * n + 1)) as [c1|] eqn:H1;
    destruct (content !! (2 * n + 2)) as [c2|] eqn:H2; cbn [option_map fst].
  - destruct (Z.ltb_spec (f c1) es) as [L1|L1]; cbn [option_map fst].
    + destruct (Z.ltb_spec (f c2) (f c1)); cbn [option_map fst]; done.
    + destruct (Z.ltb_spec (f c2) es) as [L2|L2]; cbn [option_map fst]; [done|].
      intros _ j y [->| ->] Hy; simplify_eq; lia.
  - destruct (Z.ltb_spec (f c1) es) as [L1|L1]; cbn [option_map fst]; [done|].
    intros _ j y [->| ->] Hy; simplify_eq; lia.
  - apply lookup_ge_None in H1. apply lookup_lt_Some in H2. lia.
  - intros _ j y [->| ->] Hy; simplify_eq.
Qed.

Lemma sinkDown_loop_Permutation fuel : forall (content : list T) element n,
  content !! n = Some element ->
  sinkDown_loop f fuel content element n ≡ₚ content.
Proof.
  induction fuel as [|fuel IH]; intros content element n Hn; [done|].
  cbn [sinkDown_loop].
  destruct (swap_target f content (f element) n) as [sw|] eqn:Hsw; [|done].
  destruct (content !! sw) as [c|] eqn:Hc; [|done].
  apply swap_target_Some in Hsw as [Hch _].
  pose proof (lookup_lt_Some _ _ _ Hn). pose proof (lookup_lt_Some _ _ _ Hc).
  rewrite IH.
  - by apply exchange_Permutation.
  - rewrite lookup_exchange by done. by rewrite decide_True.
Qed.

Lemma sinkDown_Permutation (content : list T) n :
  sinkDown f content n ≡ₚ content.
Proof.
  unfold sinkDown. destruct (content !! n) eqn:Hn; [|done].
  by apply sinkDown_loop_Permutation.
Qed.

(** Sinking restores the heap property, given enough iterations for the
    element to reach the bottom of the array. *)
Lemma sinkDown_loop_ok fuel : forall (content : list T) element n,
  content !! n = Some element ->
  heap_except f n content ->
  length content <= n + fuel ->
  heap_ok f (sinkDown_loop f fuel content element n).
Proof.
  induction fuel as [|fuel IH]; intros content element n Hn [Hout Hgr] Hlen.
  { apply lookup_lt_Some in Hn. lia. }
  cbn [sinkDown_loop].
  destruct (swap_target f content (f element) n) as [sw|] eqn:Hsw.
  - apply swap_target_Some in Hsw as (Hch & c & Hc & Hlt & Hmin).
    rewrite Hc.
    pose proof (lookup_lt_Some _ _ _ Hn) as Ln.
    pose proof (lookup_lt_Some _ _ _ Hc) as Lc.
    assert (n < sw) as Hnsw by (destruct Hch; lia).
    apply IH.
    + rewrite lookup_exchange by done. by rewrite decide_True.
    + split.
      * intros i j x y Hi Hij.
        rewrite !lookup_exchange by done.
        rewrite (decide_False (P := i = sw)) by done.
        destruct (decide (i = n)) as [->|Hin].
        -- intros [= <-].
           destruct (decide (j = sw)) as [->|Hjs]; [intros [= <-]; lia|].
           rewrite decide_False by (destruct Hij; lia).
           intros Hy. by apply (Hmin j).
        -- intros Hx.
           destruct (decide (j = sw)) as [->|Hjs].
           { destruct Hij, Hch; lia. }
           destruct (decide (j = n)) as [->|Hjn].
           ++ intros [= <-]. by apply (Hgr i sw).
           ++ intros Hy. by apply (Hout i j).
      * intros p j x y Hp Hj.
        assert (p = n) as -> by (destruct Hp, Hch; lia).
        rewrite !lookup_exchange by done.
        rewrite (decide_False (P := n = sw)) by lia.
        rewrite decide_True by done.
        rewrite (decide_False (P := j = sw)) by (destruct Hj; lia).
        rewrite (decide_False (P := j = n)) by (destruct Hj; lia).
        intros [= <-] Hy. apply (Hout sw j); [lia|done..].
    + rewrite !length_insert. lia.
  - intros i j x y Hij Hx Hy.
    destruct (decide (i = n)) as [->|Hin].
    + simplify_eq. by apply (swap_target_None _ _ _ Hsw j).
    + by apply (Hout i j).
Qed.

Lemma heap_ok_nil : heap_ok f (@nil T).
Proof. intros i j x y _ Hx. by rewrite lookup_nil in Hx. Qed.

(** The element at rank 0 of a heap has the smallest score. *)
Lemma heap_ok_root_min (content : list T) x :
  heap_ok f content -> content !! 0 = Some x ->
  forall y, y ∈ content -> (f x <= f y)%Z.
Proof.
  intros Hok Hx y Hy. apply list_elem_of_lookup in Hy as [j Hj].
  revert y Hj. induction (lt_wf j) as [j _ IH]. intros y Hj.
  destruct j as [|j]; [simplify_eq; lia|].
  pose proof (lookup_lt_Some _ _ _ Hj) as Lj.
  destruct (lookup_lt_is_Some_2 content (j / 2)) as [z Hz].
  { pose proof (Nat.Div0.div_le_upper_bound j 2 j). lia. }
  assert (is_child (j / 2) (S j)) as Hch.
  { unfold is_child. pose proof (Nat.div_mod_eq j 2).
    pose proof (Nat.mod_upper_bound j 2). lia. }
  transitivity (f z).
  - apply (IH (j / 2)); [|done].
    pose proof (Nat.Div0.div_le_upper_bound j 2 j). lia.
  - by apply (Hok (j / 2) (S j)).
Qed.

(** The heap property only reads the scores of the elements present. *)
Lemma heap_ok_shift (g : T -> Z) (k : Z) (content : list T) :
  (forall x, x ∈ content -> g x = (f x - k)%Z) ->
  heap_ok f content -> heap_ok g content.
Proof.
  intros Hg Hok i j x y Hij Hx Hy.
  rewrite (Hg x), (Hg y) by (eapply list_elem_of_lookup_2; eassumption).
  pose proof (Hok i j x y Hij Hx Hy). lia.
Qed.

Lemma heap_ok_ext (g : T -> Z) (content : list T) :
  (forall x, x ∈ content -> g x = f x) ->
  heap_ok f content -> heap_ok g content.
Proof.
  intros Hg. apply (heap_ok_shift g 0).
  intros x Hx. rewrite Hg by done. lia.
Qed.

Lemma pop_nil : pop f (@nil T) = (None, []).
Proof. reflexivity. Qed.

(** [pop] takes the first element of the array off; what remains holds
    the other elements and is a heap again. *)
Lemma pop_cons (x : T) (tl : list T) :
  exists rest, pop f (x :: tl) = (Some x, rest) /\
    rest ≡ₚ tl /\ (heap_ok f (x :: tl) -> heap_ok f rest).
Proof.
  unfold pop. cbn [lookup list_lookup].
  destruct (last (x :: tl)) as [e|] eqn:Hlast.
  2:{ apply last_None in Hlast. done. }
  apply last_Some in Hlast as [l' Hl']. rewrite Hl'.
  rewrite removelast_last.
  destruct l' as [|x' l'].
  - cbn [app] in Hl'. simplify_eq.
    exists []. split; [done|]. split; [done|]. intros _. apply heap_ok_nil.
  - cbn [app] in Hl'. simplify_eq. cbn [isEmpty insert list_insert].
    exists (sinkDown f (e :: l') 0). split; [done|]. split.
    + rewrite sinkDown_Permutation. apply Permutation_cons_append.
    + intros Hok. unfold sinkDown. cbn [lookup list_lookup].
      apply sinkDown_loop_ok; [done| |lia].
      split.
      * intros i j u v Hi Hij Hu Hv.
        destruct i as [|i]; [done|]. destruct j as [|j].
        { destruct Hij; lia. }
        apply (Hok (S i) (S j)); [done|..];
          cbn [lookup list_lookup] in *; by apply lookup_app_l_Some.
      * intros q j u v Hq. destruct Hq; lia.
Qed.

Lemma bubbleUp_loop_Permutation fuel : forall (content : list T) element n,
  content !! n = Some element ->
  bubbleUp_loop f fuel content element n ≡ₚ content.
Proof.
  induction fuel as [|fuel IH]; intros content element n Hn; [done|].
  cbn [bubbleUp_loop].
  destruct (Nat.eqb_spec n 0) as [->|Hn0]; [done|].
  destruct (content !! ((n + 1) / 2 - 1)) as [parent|] eqn:Hp; [|done].
  destruct (f element <? f parent)%Z; [|done].
  pose proof (lookup_lt_Some _ _ _ Hn). pose proof (lookup_lt_Some _ _ _ Hp).
  rewrite IH.
  - by apply exchange_Permutation.
  - rewrite lookup_exchange by done.
    assert ((n + 1) / 2 - 1 < n).
    { pose proof (Nat.Div0.div_le_upper_bound (n + 1) 2 n). lia. }
    rewrite decide_False by lia. by rewrite decide_True.
Qed.

Lemma push_Permutation (element : T) (content : list T) :
  push f element content ≡ₚ content ++ [element].
Proof.
  unfold push, bubbleUp.
  destruct ((content ++ [element]) !! length content) eqn:H; [|done].
  by apply bubbleUp_loop_Permutation.
Qed.

Lemma pushAll_Permutation (elements : list T) : forall content : list T,
  pushAll f elements content ≡ₚ content ++ elements.
Proof.
  unfold pushAll.
  induction elements as [|e elements IH]; intros content; cbn [fold_left].
  - by rewrite app_nil_r.
  - rewrite IH, push_Permutation, <- app_assoc. done.
Qed.

Lemma heap_okb_sound (content : list T) :
  heap_okb f content = true -> heap_ok f content.
Proof.
  unfold heap_okb. rewrite forallb_forall.
  intros H i j x y Hij Hx Hy.
  pose proof (lookup_lt_Some _ _ _ Hy) as Lj.
  assert ((j - 1) / 2 = i) as Hdiv.
  { symmetry. destruct Hij as [-> | ->].
    - apply (Nat.div_unique _ 2 i 0); lia.
    - apply (Nat.div_unique _ 2 i 1); lia. }
  specialize (H j). rewrite Hdiv, Hx, Hy in H.
  apply Z.leb_le, H, in_seq. destruct Hij; lia.
Qed.

Lemma parent_is_child n :
  0 < n -> is_child ((n + 1) / 2 - 1) n.
Proof.
  intros Hn. unfold is_child.
  pose proof (Nat.div_mod_eq (n + 1) 2).
  pose proof (Nat.mod_upper_bound (n + 1) 2). lia.
Qed.

Lemma is_child_parent i n : is_child i n -> i = (n + 1) / 2 - 1.
Proof.
  unfold is_child.
  pose proof (Nat.div_mod_eq (n + 1) 2).
  pose proof (Nat.mod_upper_bound (n + 1) 2). lia.
Qed.

(** An element that is not below its parent has finished rising. *)
Lemma heap_below_done (content : list T) n element :
  content !! n = Some element -> heap_below f n content ->
  (forall parent, 0 < n -> content !! ((n + 1) / 2 - 1) = Some parent ->
     (f parent <= f element)%Z) ->
  heap_ok f content.
Proof.
  intros Hn [Hout _] Hp i j x y Hij Hx Hy.
  destruct (decide (j = n)) as [->|Hj]; [|by apply (Hout i j)].
  rewrite (is_child_parent _ _ Hij) in Hx. simplify_eq.
  apply (Hp x); [destruct Hij; lia|done].
Qed.

(** Rising restores the heap property. *)
Lemma bubbleUp_loop_ok fuel : forall (content : list T) element n,
  content !! n = Some element ->
  heap_below f n content ->
  n <= fuel ->
  heap_ok f (bubbleUp_loop f fuel content element n).
Proof.
  induction fuel as [|fuel IH]; intros content element n Hn Hbelow Hfuel.
  { apply (heap_below_done content n element); [done..|]. intros; lia. }
  cbn [bubbleUp_loop].
  destruct (Nat.eqb_spec n 0) as [->|Hn0].
  { apply (heap_below_done content 0 element); [done..|]. intros; lia. }
  pose proof (parent_is_child n ltac:(lia)) as Hpn.
  set (p := (n + 1) / 2 - 1) in *.
  assert (p < n) as Hlt by (destruct Hpn; lia).
  pose proof (lookup_lt_Some _ _ _ Hn) as Ln.
  destruct (lookup_lt_is_Some_2 content p ltac:(lia)) as [parent Hp].
  rewrite Hp.
  destruct (Z.ltb_spec (f element) (f parent)) as [Hless|Hge].
  2:{ apply (heap_below_done content n element); [done..|].
      intros parent' _ Hp'. fold p in Hp'. simplify_eq. lia. }
  destruct Hbelow as [Hout Hgr].
  apply IH; [| |lia].
  { rewrite lookup_exchange by lia.
    rewrite decide_False by lia. by rewrite decide_True. }
  split.
  - intros i j x y Hj Hij. rewrite !lookup_exchange by lia.
    destruct (decide (j = n)) as [->|Hjn].
    + assert (i = p) as -> by (destruct Hij, Hpn; lia).
      rewrite decide_False by lia. rewrite decide_True by done.
      intros [= <-] [= <-]. lia.
    + rewrite (decide_False (P := j = p)) by done.
      destruct (decide (i = n)) as [->|Hin].
      * intros [= <-] Hy. by apply (Hgr p j).
      * destruct (decide (i = p)) as [->|Hip].
        -- intros [= <-] Hy.
           pose proof (Hout p j parent y Hjn Hij Hp Hy). lia.
        -- intros Hx Hy. by apply (Hout i j).
  - intros q j x y Hq Hj. rewrite !lookup_exchange by lia.
    rewrite (decide_False (P := q = n)) by (destruct Hq; lia).
    rewrite (decide_False (P := q = p)) by (destruct Hq; lia).
    rewrite (decide_False (P := j = p)) by (destruct Hj; lia).
    intros Hx.
    pose proof (Hout q p x parent ltac:(lia) Hq Hx Hp) as Hqp.
    destruct (decide (j = n)) as [->|Hjn].
    + intros [= <-]. done.
    + intros Hy. pose proof (Hout p j parent y Hjn Hj Hp Hy). lia.
Qed.

(** [push] on a heap gives a heap. *)
Lemma push_ok (element : T) (content : list T) :
  heap_ok f content -> heap_ok f (push f element content).
Proof.
  intros Hok. unfold push, bubbleUp.
  rewrite list_lookup_middle by done.
  apply bubbleUp_loop_ok; [by apply list_lookup_middle| |done].
  split.
  - intros i j x y Hj Hij Hx Hy.
    pose proof (lookup_lt_Some _ _ _ Hy) as Lj.
    rewrite length_app in Lj. cbn [length] in Lj.
    rewrite lookup_app_l in Hx by (destruct Hij; lia).
    rewrite lookup_app_l in Hy by lia. by apply (Hok i j).
  - intros q j x y _ Hj _ Hy. apply lookup_lt_Some in Hy.
    rewrite length_app in Hy. cbn [length] in Hy. destruct Hj; lia.
Qed.

Lemma pushAll_ok (elements : list T) : forall content : list T,
  heap_ok f content -> heap_ok f (pushAll f elements content).
Proof.
  unfold pushAll.
  induction elements as [|e elements IH]; intros content Hok; [done|].
  cbn [fold_left]. by apply IH, push_ok.
Qed.

End Facts.
End HeapFacts.

(** * Facts about the scheduler *)

Section SchedulerFacts.
Context {Env : Type} (update : TimedEntity -> @World Env -> @World Env).
Implicit Types s : @World Env.

Lemma submseteq_NoDup (l k : list TimedEntity) :
  l ⊆+ k -> NoDup k -> NoDup l.
Proof.
  induction 1 as [|x l k Hlk IH|x y l|x l k Hlk IH|l k m _ IH1 _ IH2];
    intros Hk.
  - done.
  - apply NoDup_cons in Hk as [Hx Hk]. apply NoDup_cons. split; [|auto].
    intros Hl. apply Hx. eapply elem_of_submseteq; eassumption.
  - by rewrite (Permutation_swap x y l).
  - apply NoDup_cons in Hk as [_ Hk]. auto.
  - auto.
Qed.

(** *** The bulk decrement *)

Lemma decrease_list_frame elapsed l : forall s,
  entities (decrease_list elapsed l s) = entities s /\
  paused (decrease_list elapsed l s) = paused s /\
  env (decrease_list elapsed l s) = env s.
Proof.
  induction l as [|e l IH]; intros s; [done|].
  unfold decrease_list in *. cbn [fold_left].
  destruct (IH (set_waitTime s e (waitTime s e - elapsed))) as (-> & -> & ->).
  done.
Qed.

Lemma decrease_list_waitTime elapsed l : forall s x,
  NoDup l ->
  waitTime (decrease_list elapsed l s) x =
    if decide (x ∈ l) then (waitTime s x - elapsed)%Z else waitTime s x.
Proof.
  induction l as [|e l IH]; intros s x Hnd.
  - rewrite decide_False; [done|]. apply not_elem_of_nil.
  - apply NoDup_cons in Hnd as [He Hnd].
    unfold decrease_list in *. cbn [fold_left]. rewrite IH by done.
    cbn [set_waitTime waitTime].
    destruct (Nat.eqb_spec x e) as [->|Hxe].
    + rewrite decide_False by done. rewrite decide_True; [done|].
      apply elem_of_cons. by left.
    + destruct (decide (x ∈ l)) as [Hx|Hx].
      * rewrite decide_True; [done|]. apply elem_of_cons. by right.
      * rewrite decide_False; [done|].
        rewrite elem_of_cons. intros [?|?]; done.
Qed.

(** The indexed loop visits the array from rank 0 upwards. *)
Lemma decrease_all_list elapsed s :
  decrease_all elapsed s = decrease_list elapsed (entities s) s.
Proof.
  unfold decrease_all, BinaryHeap.size.
  enough (forall l2 l1 s, entities s = l1 ++ l2 ->
            fold_left (decrease_at elapsed) (seq (length l1) (length l2)) s
            = decrease_list elapsed l2 s) as H by (apply (H _ [] s); done).
  clear s. induction l2 as [|e l2 IH]; intros l1 s Hs; [done|].
  cbn [length seq fold_left]. unfold decrease_list. cbn [fold_left].
  unfold decrease_at at 2, BinaryHeap.peek.
  rewrite Hs, list_lookup_middle by done.
  specialize (IH (l1 ++ [e]) (set_waitTime s e (waitTime s e - elapsed))).
  rewrite length_app in IH. cbn [length] in IH.
  replace (length l1 + 1) with (S (length l1)) in IH by lia.
  apply IH. cbn [set_waitTime entities].
  by rewrite Hs, <- app_assoc.
Qed.

Lemma elapse_frame s :
  entities (elapse s) = entities s /\ paused (elapse s) = paused s /\
  env (elapse s) = env s.
Proof.
  unfold elapse. destruct (BinaryHeap.peek (entities s) 0); [|done].
  destruct (waitTime s t >? 0)%Z; [|done].
  rewrite decrease_all_list. apply decrease_list_frame.
Qed.

Lemma elapse_waitTime s first x :
  NoDup (entities s) ->
  BinaryHeap.peek (entities s) 0 = Some first ->
  waitTime (elapse s) x =
    if decide (0 < waitTime s first ∧ x ∈ entities s)%Z
    then (waitTime s x - waitTime s first)%Z else waitTime s x.
Proof.
  intros Hnd Hfirst. unfold elapse. rewrite Hfirst.
  destruct (Z.gtb_spec (waitTime s first) 0) as [Hpos|Hpos].
  - rewrite decrease_all_list, decrease_list_waitTime by done.
    destruct (decide (x ∈ entities s)).
    + rewrite decide_True; done.
    + rewrite decide_False; [done|]. intros [_ ?]; done.
  - rewrite decide_False; [done|]. intros [? _]; lia.
Qed.

(** *** One activation *)

Lemma enforce_frame entity old s :
  entities (enforce entity old s) = entities s /\
  paused (enforce entity old s) = paused s /\
  env (enforce entity old s) = env s /\
  forall x, x <> entity ->
    waitTime (enforce entity old s) x = waitTime s x.
Proof.
  unfold enforce. destruct (waitTime s entity <=? old)%Z; [|done].
  repeat split. intros x Hx. cbn [set_waitTime waitTime].
  by destruct (Nat.eqb_spec x entity).
Qed.

Lemma enforce_waitTime entity old s :
  waitTime (enforce entity old s) entity =
    if (waitTime s entity <=? old)%Z then (old + 1)%Z
    else waitTime s entity.
Proof.
  unfold enforce. destruct (waitTime s entity <=? old)%Z; [|done].
  cbn [set_waitTime waitTime]. by rewrite Nat.eqb_refl.
Qed.

(** The entity peeked at rank 0 is the one [pop] takes off. *)
Lemma peek_pop s entity :
  BinaryHeap.peek (entities s) 0 = Some entity ->
  exists tl rest,
    entities s = entity :: tl /\
    BinaryHeap.pop (score s) (entities s) = (Some entity, rest) /\
    rest ≡ₚ tl /\
    (queue_ok s -> BinaryHeap.heap_ok (waitTime s) rest).
Proof.
  unfold BinaryHeap.peek, queue_ok. destruct (entities s) as [|x tl]; [done|].
  intros [= ->].
  destruct (HeapFacts.pop_cons (score s) entity tl) as (rest & ? & ? & ?).
  by exists tl, rest.
Qed.

Lemma activate_one_step s entity :
  BinaryHeap.peek (entities s) 0 = Some entity ->
  exists tl rest,
    entities s = entity :: tl /\ rest ≡ₚ tl /\
    (queue_ok s -> BinaryHeap.heap_ok (waitTime s) rest) /\
    entities (activate_one update entity s)
      = entities (update entity (set_entities s rest)) /\
    forall x, x <> entity ->
      waitTime (activate_one update entity s) x
        = waitTime (update entity (set_entities s rest)) x.
Proof.
  intros Hpeek.
  destruct (peek_pop s entity Hpeek) as (tl & rest & Hs & Hpop & Hperm & Hok).
  exists tl, rest. repeat split; [done..| |].
  - unfold activate_one. rewrite Hpop. cbn [snd]. apply enforce_frame.
  - intros x Hx. unfold activate_one. rewrite Hpop. cbn [snd].
    by apply enforce_frame.
Qed.

(** *** The activation loop *)

(** What holds before the loop and is kept by one activation holds when
    the loop ends, and then no entity at rank 0 has a wait time of zero
    or less. *)
Lemma activate_inv (I : @World Env -> list TimedEntity -> Prop) :
  (forall s updated entity,
     I s updated ->
     BinaryHeap.peek (entities s) 0 = Some entity ->
     (waitTime s entity <= 0)%Z ->
     I (activate_one update entity s) (updated ++ [entity])) ->
  forall fuel s updated s' updated',
    I s updated ->
    activate update fuel s updated = Some (s', updated') ->
    I s' updated' /\
    forall entity, BinaryHeap.peek (entities s') 0 = Some entity ->
      (0 < waitTime s' entity)%Z.
Proof.
  intros Hstep fuel.
  induction fuel as [|fuel IH]; intros s updated s' updated' HI;
    cbn [activate];
    destruct (BinaryHeap.peek (entities s) 0) as [entity|] eqn:Hpeek.
  - destruct (Z.leb_spec (waitTime s entity) 0) as [Hle|Hgt]; [done|].
    intros [= <- <-]. split; [done|]. intros e He. by simplify_eq.
  - intros [= <- <-]. split; [done|]. intros e He. by simplify_eq.
  - destruct (Z.leb_spec (waitTime s entity) 0) as [Hle|Hgt].
    + apply IH. by apply Hstep.
    + intros [= <- <-]. split; [done|]. intros e He. by simplify_eq.
  - intros [= <- <-]. split; [done|]. intros e He. by simplify_eq.
Qed.

(** The loop comes to an end when no [update()] adds to the queue: every
    round takes one entity off. *)
Lemma activate_terminates :
  update_no_insert update ->
  forall fuel s updated,
    length (entities s) <= fuel ->
    exists s' updated', activate update fuel s updated = Some (s', updated').
Proof.
  intros Hins fuel.
  induction fuel as [|fuel IH]; intros s updated Hlen; cbn [activate];
    destruct (BinaryHeap.peek (entities s) 0) as [entity|] eqn:Hpeek;
    [|by eauto| |by eauto].
  - apply lookup_lt_Some in Hpeek. lia.
  - destruct (waitTime s entity <=? 0)%Z; [|by eauto].
    apply IH.
    destruct (activate_one_step s entity Hpeek)
      as (tl & rest & Hs & Hperm & _ & -> & _).
    pose proof (submseteq_length _ _ (Hins entity (set_entities s rest))) as H.
    cbn [set_entities entities] in H.
    rewrite Hs in Hlen. cbn [length] in Hlen.
    apply Permutation_length in Hperm. lia.
Qed.

Lemma run_unfold fuel s :
  paused s = false -> entities s <> [] ->
  run update fuel s = option_map reinsert (activate update fuel (elapse s) []).
Proof.
  intros Hp He. unfold run. rewrite Hp. by destruct (entities s).
Qed.

Lemma run_noop fuel s :
  paused s = true \/ entities s = [] -> run update fuel s = Some (s, []).
Proof.
  unfold run. intros [-> | ->]; [done|]. by rewrite orb_true_r.
Qed.

Lemma reinsert_frame (r : @World Env * list TimedEntity) :
  waitTime (fst (reinsert r)) = waitTime (fst r) /\
  paused (fst (reinsert r)) = paused (fst r) /\
  env (fst (reinsert r)) = env (fst r) /\
  snd (reinsert r) = snd r /\
  entities (fst (reinsert r)) ≡ₚ entities (fst r) ++ snd r.
Proof.
  destruct r as [s updated]. repeat split.
  apply HeapFacts.pushAll_Permutation.
Qed.

(** *** What the loop keeps *)

(** Queue and pending list together never hold more than the queue held
    when the loop started. *)
Lemma step_members s0 s updated entity :
  update_no_insert update ->
  entities s ++ updated ⊆+ entities s0 ->
  BinaryHeap.peek (entities s) 0 = Some entity ->
  entities (activate_one update entity s) ++ updated ++ [entity]
    ⊆+ entities s0.
Proof.
  intros Hins HI Hpeek.
  destruct (activate_one_step s entity Hpeek)
    as (tl & rest & Hs & Hperm & _ & -> & _).
  etransitivity; [|exact HI].
  pose proof (Hins entity (set_entities s rest)) as H.
  cbn [set_entities entities] in H.
  rewrite Hs. etransitivity.
  { apply submseteq_skips_r. etransitivity; [exact H|].
    apply Permutation_submseteq, Hperm. }
  apply Permutation_submseteq.
  rewrite (Permutation_app_comm updated [entity]). cbn [app].
  by rewrite Permutation_middle.
Qed.

Lemma step_members_perm s0 s updated entity :
  update_keeps_members update ->
  entities s ++ updated ≡ₚ entities s0 ->
  BinaryHeap.peek (entities s) 0 = Some entity ->
  entities (activate_one update entity s) ++ updated ++ [entity]
    ≡ₚ entities s0.
Proof.
  intros Hkeep HI Hpeek.
  destruct (activate_one_step s entity Hpeek)
    as (tl & rest & Hs & Hperm & _ & -> & _).
  rewrite <- HI, Hs, (Hkeep entity (set_entities s rest)).
  cbn [set_entities entities]. rewrite Hperm.
  rewrite (Permutation_app_comm updated [entity]). cbn [app].
  by rewrite Permutation_middle.
Qed.

(** An entity that is not activated keeps its wait time. *)
Lemma step_waitTime s0 s updated entity :
  update_own_waitTime update ->
  (forall x, x ∉ updated -> waitTime s x = waitTime s0 x) ->
  BinaryHeap.peek (entities s) 0 = Some entity ->
  forall x, x ∉ updated ++ [entity] ->
    waitTime (activate_one update entity s) x = waitTime s0 x.
Proof.
  intros Hown HI Hpeek x Hx.
  apply not_elem_of_app in Hx as [Hx Hne].
  rewrite list_elem_of_singleton in Hne.
  destruct (activate_one_step s entity Hpeek)
    as (tl & rest & _ & _ & _ & _ & Hw).
  rewrite Hw, Hown by done. by apply HI.
Qed.

Lemma run_terminates fuel s :
  update_no_insert update ->
  length (entities s) <= fuel ->
  exists s' updated, run update fuel s = Some (s', updated).
Proof.
  intros Hins Hlen. unfold run.
  destruct (paused s || BinaryHeap.isEmpty (entities s)); [by eauto|].
  destruct (activate_terminates Hins fuel (elapse s) [])
    as (s1 & updated & ->).
  - by destruct (elapse_frame s) as (-> & _).
  - cbn [option_map]. unfold reinsert. eauto.
Qed.

(** A run that is not a no-op is the loop on the elapsed state followed
    by the re-insertion. *)
Lemma run_Some fuel s s' updated :
  paused s = false -> entities s <> [] ->
  run update fuel s = Some (s', updated) ->
  exists s1, activate update fuel (elapse s) [] = Some (s1, updated) /\
    s' = fst (reinsert (s1, updated)).
Proof.
  intros Hp He. rewrite run_unfold by done.
  destruct (activate update fuel (elapse s) []) as [[s1 upd]|]; [|done].
  cbn [option_map]. unfold reinsert. cbn [fst snd].
  intros [= <- <-]. by exists s1.
Qed.

Lemma run_cases fuel s s' updated :
  run update fuel s = Some (s', updated) ->
  (s' = s /\ updated = []) \/
  (paused s = false /\ entities s <> [] /\
   exists s1, activate update fuel (elapse s) [] = Some (s1, updated) /\
     s' = fst (reinsert (s1, updated))).
Proof.
  intros Hrun.
  destruct (paused s) eqn:Hp.
  { rewrite run_noop in Hrun by auto. left. by simplify_eq. }
  destruct (decide (entities s = [])) as [He|He].
  { rewrite run_noop in Hrun by auto. left. by simplify_eq. }
  right. repeat split; [done|]. by apply run_Some.
Qed.

(** *** The minimum of the queue *)

Lemma peek_is_min s first :
  queue_ok s -> BinaryHeap.peek (entities s) 0 = Some first ->
  is_min_waitTime s (waitTime s first).
Proof.
  intros Hok Hpeek. split.
  - exists first. split; [|done]. by eapply list_elem_of_lookup_2.
  - intros e He. by apply (HeapFacts.heap_ok_root_min _ _ _ Hok Hpeek).
Qed.

Lemma is_min_waitTime_unique s m m' :
  is_min_waitTime s m -> is_min_waitTime s m' -> m = m'.
Proof.
  intros [(e & He & <-) Hm] [(e' & He' & <-) Hm'].
  pose proof (Hm e' He'). pose proof (Hm' e He). lia.
Qed.

Lemma nonempty_peek s :
  entities s <> [] -> exists first, BinaryHeap.peek (entities s) 0 = Some first.
Proof. destruct (entities s) as [|x l] eqn:E; [done|]. by exists x. Qed.

(** The bulk decrement shifts every key of the queue by the same amount
    and so keeps the heap property. *)
Lemma elapse_queue_ok s :
  queue_ok s -> NoDup (entities s) -> queue_ok (elapse s).
Proof.
  intros Hok Hnd. unfold queue_ok.
  destruct (elapse_frame s) as (-> & _).
  destruct (BinaryHeap.peek (entities s) 0) as [first|] eqn:Hpeek.
  - destruct (decide (0 < waitTime s first)%Z) as [Hpos|Hpos].
    + apply (HeapFacts.heap_ok_shift (waitTime s) _ (waitTime s first));
        [|done].
      intros x Hx. rewrite (elapse_waitTime s first) by done.
      by rewrite decide_True.
    + apply (HeapFacts.heap_ok_ext (waitTime s)); [|done].
      intros x Hx. rewrite (elapse_waitTime s first) by done.
      rewrite decide_False; [done|]. by intros [? _].
  - unfold elapse. by rewrite Hpeek.
Qed.

(** The loop seen from the world [s0] it starts on: nothing enters the
    queue, an entity that is not updated keeps its wait time, and an
    updated entity had a wait time of zero or less. *)
Lemma activate_survey s0 fuel s1 updated :
  update_no_insert update -> update_own_waitTime update ->
  NoDup (entities s0) ->
  activate update fuel s0 [] = Some (s1, updated) ->
  entities s1 ++ updated ⊆+ entities s0 /\
  (forall x, x ∉ updated -> waitTime s1 x = waitTime s0 x) /\
  (forall x, x ∈ updated -> (waitTime s0 x <= 0)%Z).
Proof.
  intros Hins Hown Hnd Hact.
  apply (activate_inv
    (fun w upd =>
       entities w ++ upd ⊆+ entities s0 /\
       (forall x, x ∉ upd -> waitTime w x = waitTime s0 x) /\
       (forall x, x ∈ upd -> (waitTime s0 x <= 0)%Z)))
    in Hact as [HI _]; [done| |].
  - intros w upd e (Hsub & Hfr & Hel) Hpeek Hle. repeat split.
    + by apply step_members.
    + by apply step_waitTime.
    + intros x Hx. apply elem_of_app in Hx as [Hx|Hx]; [by apply Hel|].
      apply list_elem_of_singleton in Hx as ->.
      rewrite <- Hfr; [done|].
      apply submseteq_NoDup in Hsub; [|done].
      apply NoDup_app in Hsub as (_ & Hdis & _). apply Hdis.
      by eapply list_elem_of_lookup_2.
  - rewrite app_nil_r. repeat split; [done|].
    intros x Hx. by apply not_elem_of_nil in Hx.
Qed.

(** With updates that leave the queue alone the loop keeps a heap, and
    it only stops on a queue whose wait times are all positive. *)
Lemma activate_drains s0 fuel s1 updated :
  update_keeps_queue update -> update_own_waitTime update ->
  NoDup (entities s0) -> queue_ok s0 ->
  activate update fuel s0 [] = Some (s1, updated) ->
  queue_ok s1 /\
  entities s1 ++ updated ≡ₚ entities s0 /\
  (forall x, x ∉ updated -> waitTime s1 x = waitTime s0 x) /\
  (forall x, x ∈ entities s1 -> (0 < waitTime s1 x)%Z).
Proof.
  intros Hkeep Hown Hnd Hok0 Hact.
  assert (update_keeps_members update) as Hmem.
  { intros e w. by rewrite Hkeep. }
  apply (activate_inv
    (fun w upd =>
       queue_ok w /\ entities w ++ upd ≡ₚ entities s0 /\
       (forall x, x ∉ upd -> waitTime w x = waitTime s0 x)))
    in Hact as [(Hok & Hperm & Hfr) Hroot].
  - repeat split; [done..|].
    intros x Hx.
    destruct (nonempty_peek s1) as [r Hr].
    { intros E. rewrite E in Hx. by apply not_elem_of_nil in Hx. }
    pose proof (Hroot r Hr).
    pose proof (HeapFacts.heap_ok_root_min _ _ _ Hok Hr x Hx). lia.
  - intros w upd e (Hok & Hperm & Hfr) Hpeek Hle. split; [|split].
    + unfold queue_ok.
      destruct (activate_one_step w e Hpeek)
        as (tl & rest & Hw & Hrest & Hheap & -> & Hwt).
      rewrite Hkeep. cbn [set_entities entities].
      apply (HeapFacts.heap_ok_ext (waitTime w)); [|by apply Hheap].
      intros x Hx. rewrite Hwt, Hown; [done| |].
      * intros ->. rewrite <- Hperm, Hw in Hnd.
        apply NoDup_app in Hnd as (Hnd & _).
        apply NoDup_cons in Hnd as [Hnd _]. apply Hnd. by rewrite <- Hrest.
      * intros ->. rewrite <- Hperm, Hw in Hnd.
        apply NoDup_app in Hnd as (Hnd & _).
        apply NoDup_cons in Hnd as [Hnd _]. apply Hnd. by rewrite <- Hrest.
    + by apply step_members_perm.
    + by apply step_waitTime.
  - rewrite app_nil_r. repeat split; done.
Qed.

(** The heap property and the absence of duplicates are kept by [add] and
    by [run()], so they hold whenever [run()] is entered. *)
Lemma add_queue_ok entity s :
  queue_ok s -> entity ∉ entities s ->
  queue_ok (add entity s) /\
  (NoDup (entities s) -> NoDup (entities (add entity s))).
Proof.
  intros Hok Hnew. split.
  - by apply HeapFacts.push_ok.
  - intros Hnd. cbn [add set_entities entities].
    rewrite HeapFacts.push_Permutation.
    apply NoDup_app. repeat split; [done| |apply NoDup_singleton].
    intros x Hx Hin. apply list_elem_of_singleton in Hin as ->. done.
Qed.

Lemma run_keeps_queue_ok fuel s s' updated :
  update_keeps_queue update -> update_own_waitTime update ->
  queue_ok s -> NoDup (entities s) ->
  run update fuel s = Some (s', updated) ->
  queue_ok s' /\ NoDup (entities s').
Proof.
  intros Hkeep Hown Hok Hnd Hrun.
  destruct (run_cases fuel s s' updated Hrun)
    as [[-> ->]|(Hp & Hne & s1 & Hact & ->)]; [done|].
  destruct (elapse_frame s) as (Hel & _).
  apply activate_drains in Hact as (Hok1 & Hperm & _ & _);
    [|done|done|by rewrite Hel|by apply elapse_queue_ok].
  split.
  - by apply HeapFacts.pushAll_ok.
  - destruct (reinsert_frame (s1, updated)) as (_ & _ & _ & _ & ->).
    cbn [fst snd]. by rewrite Hperm, Hel.
Qed.

(** The number of rounds allowed does not matter once it is enough. *)
Lemma activate_fuel_mono fuel : forall fuel' s updated r,
  fuel <= fuel' ->
  activate update fuel s updated = Some r ->
  activate update fuel' s updated = Some r.
Proof.
  induction fuel as [|fuel IH]; intros fuel' s updated r Hle;
    destruct fuel' as [|fuel']; cbn [activate];
    destruct (BinaryHeap.peek (entities s) 0) as [entity|]; try done;
    destruct (waitTime s entity <=? 0)%Z; try done; try lia.
  apply IH. lia.
Qed.

Lemma run_fuel_mono fuel fuel' s r :
  fuel <= fuel' ->
  run update fuel s = Some r -> run update fuel' s = Some r.
Proof.
  intros Hle. unfold run.
  destruct (paused s || BinaryHeap.isEmpty (entities s)); [done|].
  destruct (activate update fuel (elapse s) []) as [r1|] eqn:Hact; [|done].
  by rewrite (activate_fuel_mono fuel fuel' _ _ r1 Hle Hact).
Qed.

(** The loop is the body applied to the updated entities, one after the
    other in the order of the list. *)
Lemma activate_trace fuel : forall s updated s' updated',
  activate update fuel s updated = Some (s', updated') ->
  exists l, updated' = updated ++ l /\
    s' = fold_left (fun w e => activate_one update e w) l s.
Proof.
  induction fuel as [|fuel IH]; intros s updated s' updated';
    cbn [activate];
    destruct (BinaryHeap.peek (entities s) 0) as [entity|];
    try destruct (waitTime s entity <=? 0)%Z; try done;
    try (intros [= <- <-]; exists []; by rewrite app_nil_r).
  intros H. apply IH in H as (l & -> & ->). exists (entity :: l).
  by rewrite <- app_assoc.
Qed.

End SchedulerFacts.

(** * The properties of [run()] *)

Section Run.
Context {Env : Type} (update : TimedEntity -> @World Env -> @World Env).
Implicit Types s : @World Env.

(** C1: an entity popped by the activation loop (it is at rank 0 with a
    wait time of zero or less) is updated in that round, and afterwards
    its wait time is the value read before [update()] plus one when
    [update()] left it at or below that value; when [update()] raised it
    above that value the scheduler changes nothing of what [update()]
    left. *)
Theorem activation_enforces_waitTime fuel s updated entity :
  BinaryHeap.peek (entities s) 0 = Some entity ->
  (waitTime s entity <= 0)%Z ->
  let oldWaitTime := waitTime s entity in
  let popped :=
    set_entities s (snd (BinaryHeap.pop (score s) (entities s))) in
  let after := update entity popped in
  let s' := activate_one update entity s in
  activate update (S fuel) s updated
    = activate update fuel s' (updated ++ [entity]) /\
  ((waitTime after entity <= oldWaitTime)%Z ->
     s' = set_waitTime after entity (oldWaitTime + 1) /\
     waitTime s' entity = (oldWaitTime + 1)%Z) /\
  ((oldWaitTime < waitTime after entity)%Z -> s' = after).
Proof.
  intros Hpeek Hle. cbn zeta. split; [|split].
  - cbn [activate]. rewrite Hpeek.
    by destruct (Z.leb_spec (waitTime s entity) 0); [|lia].
  - intros Hafter. unfold activate_one, enforce. cbn [set_entities waitTime].
    destruct (Z.leb_spec
      (waitTime (update entity (set_entities s
         (snd (BinaryHeap.pop (score s) (entities s))))) entity)
      (waitTime s entity)) as [_|Hgt].
    + split; [done|]. cbn [set_waitTime waitTime].
      by rewrite Nat.eqb_refl.
    + cbn [set_entities waitTime] in *. lia.
  - intros Hafter. unfold activate_one, enforce. cbn [set_entities waitTime].
    destruct (Z.leb_spec
      (waitTime (update entity (set_entities s
         (snd (BinaryHeap.pop (score s) (entities s))))) entity)
      (waitTime s entity)) as [Hle'|_]; [|done].
    cbn [set_entities waitTime] in *. lia.
Qed.

(** C5: when the scheduler is paused or its queue is empty, [run()]
    returns the world it was given, with no entity updated; repeating
    the call any number of times gives the same world again. *)
Theorem run_noop_when_paused_or_empty fuel s :
  paused s = true \/ entities s = [] ->
  run update fuel s = Some (s, []) /\
  forall n, run_repeat update fuel n s = Some s.
Proof.
  intros H. split; [by apply run_noop|].
  induction n as [|n IH]; [done|].
  cbn [run_repeat]. by rewrite run_noop.
Qed.

(** C9: [pause()], [resume()] and [isPaused()] leave the queue, every
    wait time and the rest of the world as they are; the first two set
    the flag, the third returns it and changes nothing. *)
Theorem pause_resume_isPaused_frame s :
  (entities (pause s) = entities s /\ waitTime (pause s) = waitTime s /\
   env (pause s) = env s /\ paused (pause s) = true) /\
  (entities (resume s) = entities s /\ waitTime (resume s) = waitTime s /\
   env (resume s) = env s /\ paused (resume s) = false) /\
  isPaused s = (paused s, s).
Proof. repeat split. Qed.

(** C3, as the code has it: on a scheduler that is not paused and whose
    queue is not empty, is a heap and holds no entity twice, [run()] reads the wait time at
    rank 0, which is the minimum of the queue; the activation loop, the
    only part calling [update()], starts on the elapsed world, in which
    that minimum, when strictly positive, has been taken off the wait
    time of exactly the entities of the queue. *)
Theorem run_subtracts_minimum fuel s :
  paused s = false -> entities s <> [] ->
  queue_ok s -> NoDup (entities s) ->
  exists first,
    BinaryHeap.peek (entities s) 0 = Some first /\
    is_min_waitTime s (waitTime s first) /\
    run update fuel s
      = option_map reinsert (activate update fuel (elapse s) []) /\
    entities (elapse s) = entities s /\
    forall e, waitTime (elapse s) e =
      if decide (0 < waitTime s first ∧ e ∈ entities s)%Z
      then (waitTime s e - waitTime s first)%Z else waitTime s e.
Proof.
  intros Hp Hne Hok Hnd.
  destruct (nonempty_peek s Hne) as [first Hfirst].
  exists first. split; [done|]. split; [by apply peek_is_min|].
  split; [by apply run_unfold|]. split; [apply elapse_frame|].
  intros e. by apply elapse_waitTime.
Qed.

(** C10: when no [update()] adds or removes an entity, [run()] returns
    and the queue holds afterwards the entities it held before, as many
    of them; the updated entities are in it again. *)
Theorem run_preserves_entities fuel s :
  update_keeps_members update ->
  length (entities s) <= fuel ->
  exists s' updated,
    run update fuel s = Some (s', updated) /\
    entities s' ≡ₚ entities s /\
    length (entities s') = length (entities s) /\
    (forall e, e ∈ entities s' <-> e ∈ entities s) /\
    (forall e, e ∈ updated -> e ∈ entities s').
Proof.
  intros Hkeep Hlen.
  assert (update_no_insert update) as Hins.
  { intros e w. apply Permutation_submseteq, Hkeep. }
  destruct (run_terminates update fuel s Hins Hlen) as (s' & updated & Hrun).
  exists s', updated. split; [done|].
  enough (entities s' ≡ₚ entities s /\
          forall e, e ∈ updated -> e ∈ entities s') as [Hperm Hupd].
  { repeat split; [done|by rewrite Hperm|by rewrite Hperm|by rewrite Hperm|done]. }
  destruct (run_cases update fuel s s' updated Hrun)
    as [[-> ->]|(Hp & Hne & s1 & Hact & ->)].
  { split; [done|]. intros e He. by apply not_elem_of_nil in He. }
  apply (activate_inv update
           (fun w upd => entities w ++ upd ≡ₚ entities (elapse s)))
    in Hact as [HI _].
  - destruct (reinsert_frame (s1, updated)) as (_ & _ & _ & _ & Hre).
    cbn [fst snd] in Hre. destruct (elapse_frame s) as (He & _).
    rewrite He in HI. split.
    + by rewrite Hre.
    + intros e Hin. rewrite Hre. apply elem_of_app. by right.
  - intros w upd e HI Hpeek _. by apply step_members_perm.
  - by rewrite app_nil_r.
Qed.

(** C4, as the code has it: within one [run()] call no entity is updated
    twice, when the queue holds no entity twice and no [update()] adds
    to the queue. *)
Theorem run_updates_once fuel s :
  update_no_insert update ->
  NoDup (entities s) ->
  length (entities s) <= fuel ->
  exists s' updated,
    run update fuel s = Some (s', updated) /\ NoDup updated.
Proof.
  intros Hins Hnd Hlen.
  destruct (run_terminates update fuel s Hins Hlen) as (s' & updated & Hrun).
  exists s', updated. split; [done|].
  destruct (run_cases update fuel s s' updated Hrun)
    as [[-> ->]|(Hp & Hne & s1 & Hact & ->)]; [apply NoDup_nil_2|].
  apply (activate_inv update
           (fun w upd => entities w ++ upd ⊆+ entities (elapse s)))
    in Hact as [HI _].
  - destruct (elapse_frame s) as (He & _). rewrite He in HI.
    apply submseteq_NoDup in HI; [|done].
    by apply NoDup_app in HI as (_ & _ & ?).
  - intros w upd e HI Hpeek _. by apply step_members.
  - by rewrite app_nil_r.
Qed.

(** C8, as the code has it: when no [update()] adds to the queue, [run()]
    returns, given as
    many rounds as the queue has entities, and it updates at most that
    many entities; when moreover every [update()] sets no wait time but
    its own entity's and the queue holds no entity twice, it updates at
    most as many entities as have a wait time of zero or less after the
    decrement. *)
Theorem run_terminates_bounded fuel s :
  update_no_insert update ->
  length (entities s) <= fuel ->
  exists s' updated,
    run update fuel s = Some (s', updated) /\
    length updated <= length (entities s) /\
    (update_own_waitTime update -> NoDup (entities s) ->
     length updated <= length (eligible (elapse s))).
Proof.
  intros Hins Hlen.
  destruct (run_terminates update fuel s Hins Hlen) as (s' & updated & Hrun).
  exists s', updated. split; [done|].
  destruct (run_cases update fuel s s' updated Hrun)
    as [[-> ->]|(Hp & Hne & s1 & Hact & ->)].
  { cbn [length]. split; [lia|]. intros _ _. lia. }
  destruct (elapse_frame s) as (He & _). split.
  - apply (activate_inv update
             (fun w upd => entities w ++ upd ⊆+ entities (elapse s)))
      in Hact as [HI _].
    + apply submseteq_length in HI. rewrite length_app, He in HI. lia.
    + intros w upd e HI Hpeek _. by apply step_members.
    + by rewrite app_nil_r.
  - intros Hown Hnd.
    apply activate_survey in Hact as (Hsub & _ & Hle);
      [|done|done|by rewrite He].
    apply submseteq_length, NoDup_submseteq.
    + apply submseteq_NoDup in Hsub; [|by rewrite He].
      by apply NoDup_app in Hsub as (_ & _ & ?).
    + intros x Hx. apply list_elem_of_filter. split; [by apply Hle|].
      eapply elem_of_submseteq; [|exact Hsub].
      apply elem_of_app. by right.
Qed.

(** C6, as the code has it: on a scheduler that is not paused, whose
    queue is a heap holding no entity twice, and with updates that add
    nothing to the queue and set no wait time but their own entity's, an
    entity of the queue that is not updated by [run()] ends with its wait
    time minus the minimum [m] of the queue when [m] is strictly
    positive, and with its wait time unchanged when [m] is zero or
    less. *)
Theorem run_survivor_waitTime fuel s m :
  update_no_insert update -> update_own_waitTime update ->
  paused s = false -> queue_ok s -> NoDup (entities s) ->
  length (entities s) <= fuel ->
  is_min_waitTime s m ->
  exists s' updated,
    run update fuel s = Some (s', updated) /\
    forall e, e ∈ entities s -> e ∉ updated ->
      waitTime s' e =
        if (0 <? m)%Z then (waitTime s e - m)%Z else waitTime s e.
Proof.
  intros Hins Hown Hp Hok Hnd Hlen Hm.
  destruct (run_terminates update fuel s Hins Hlen) as (s' & updated & Hrun).
  exists s', updated. split; [done|]. intros e He Hupd.
  assert (entities s <> []) as Hne.
  { intros E. rewrite E in He. by apply not_elem_of_nil in He. }
  destruct (nonempty_peek s Hne) as [first Hfirst].
  rewrite (is_min_waitTime_unique s m _ Hm (peek_is_min s first Hok Hfirst)).
  apply run_Some in Hrun as (s1 & Hact & ->); [|done..].
  destruct (reinsert_frame (s1, updated)) as (-> & _). cbn [fst].
  destruct (elapse_frame s) as (Hel & _).
  apply activate_survey in Hact as (_ & Hfr & _);
    [|done|done|by rewrite Hel].
  rewrite Hfr, (elapse_waitTime s first) by done.
  destruct (Z.ltb_spec 0 (waitTime s first)).
  - by rewrite decide_True.
  - rewrite decide_False; [done|]. intros [? _]. lia.
Qed.

(** C7, as the code has it: on a scheduler that is not paused, whose
    queue is a heap holding no entity twice, and with updates that leave
    the queue alone and set no wait time but their own entity's, every
    entity of the queue whose wait time is zero or less after the decrement
    is updated in that same [run()] call: it is in the list of the updated
    entities, and the world [run()] returns is the one obtained from the
    decremented world by popping each entity of that list in turn, calling
    its [update()] and enforcing its wait time, before the list is pushed
    back. *)
Theorem run_activates_all_eligible fuel s :
  update_keeps_queue update -> update_own_waitTime update ->
  paused s = false -> queue_ok s -> NoDup (entities s) ->
  length (entities s) <= fuel ->
  exists s' updated,
    run update fuel s = Some (s', updated) /\
    (forall e, e ∈ entities s -> (waitTime (elapse s) e <= 0)%Z ->
       e ∈ updated) /\
    (entities s <> [] ->
     s' = fst (reinsert
       (fold_left
          (fun w e =>
             enforce e (waitTime w e)
               (update e (set_entities w
                  (snd (BinaryHeap.pop (score w) (entities w))))))
          updated (elapse s),
        updated))).
Proof.
  intros Hkeep Hown Hp Hok Hnd Hlen.
  assert (update_no_insert update) as Hins.
  { intros e w. by rewrite Hkeep. }
  destruct (run_terminates update fuel s Hins Hlen) as (s' & updated & Hrun).
  exists s', updated. split; [done|]. split.
  - intros e He Hle.
    assert (entities s <> []) as Hne.
    { intros E. rewrite E in He. by apply not_elem_of_nil in He. }
    apply run_Some in Hrun as (s1 & Hact & ->); [|done..].
    destruct (elapse_frame s) as (Hel & _).
    apply activate_drains in Hact as (_ & Hperm & Hfr & Hpos);
      [|done|done|by rewrite Hel|by apply elapse_queue_ok].
    destruct (decide (e ∈ updated)) as [|Hout]; [done|].
    assert (e ∈ entities s1) as Hin.
    { rewrite <- Hel, <- Hperm in He.
      apply elem_of_app in He as [?|?]; done. }
    specialize (Hpos e Hin). rewrite Hfr in Hpos by done. lia.
  - intros Hne.
    apply run_Some in Hrun as (s1 & Hact & ->); [|done..].
    apply activate_trace in Hact as (l & Hl & ->).
    cbn [app] in Hl. by subst l.
Qed.

End Run.

(** * The scenarios *)

Lemma keeps_queue_no_insert {Env} (update : TimedEntity -> @World Env -> @World Env) :
  update_keeps_queue update -> update_no_insert update.
Proof. intros H e s. by rewrite H. Qed.

Lemma keeps_queue_members {Env} (update : TimedEntity -> @World Env -> @World Env) :
  update_keeps_queue update -> update_keeps_members update.
Proof. intros H e s. by rewrite H. Qed.

Lemma scenario_update_keeps_queue : update_keeps_queue scenario_update.
Proof. intros e s. unfold scenario_update. by destruct (Nat.eqb e entityB). Qed.

Lemma scenario_update_own_waitTime : update_own_waitTime scenario_update.
Proof.
  intros e s x Hx. unfold scenario_update.
  destruct (Nat.eqb_spec e entityB) as [->|]; [|done].
  cbn [set_waitTime waitTime]. by destruct (Nat.eqb_spec x entityB).
Qed.

Lemma idle_update_keeps_queue : update_keeps_queue idle_update.
Proof. done. Qed.

Lemma idle_update_own_waitTime : update_own_waitTime idle_update.
Proof. done. Qed.

Lemma three_update_keeps_queue : update_keeps_queue three_update.
Proof. done. Qed.

Lemma three_update_own_waitTime : update_own_waitTime three_update.
Proof.
  intros e s x Hx. cbn [three_update set_waitTime waitTime].
  by destruct (Nat.eqb_spec x e).
Qed.

Lemma scenario_queue_ok : queue_ok scenario.
Proof. by apply HeapFacts.heap_okb_sound. Qed.

Lemma overdue_queue_ok : queue_ok overdue.
Proof. by apply HeapFacts.heap_okb_sound. Qed.

Lemma tied_queue_ok : queue_ok tied.
Proof. by apply HeapFacts.heap_okb_sound. Qed.

(** C2, as the code has it: with A(3), B(1), C(5) added in this order and
    an [update()] of B that sets its wait time to 2, [run()] reads the
    elapsed time 1 on B, brings the wait times to A=2, B=0, C=4, updates B
    and nothing else, and leaves B at 2, which is above the 0 it had when
    [update()] was called: the queue ends as A=2, C=4, B=2. *)
Theorem scenario_run fuel :
  entities scenario = [entityB; entityA; entityC] /\
  BinaryHeap.peek (entities scenario) 0 = Some entityB /\
  waitTime scenario entityB = 1%Z /\
  map (waitTime (elapse scenario)) [entityA; entityB; entityC]
    = [2; 0; 4]%Z /\
  exists s',
    run scenario_update (S fuel) scenario = Some (s', [entityB]) /\
    entities s' = [entityA; entityC; entityB] /\
    map (waitTime s') [entityA; entityC; entityB] = [2; 4; 2]%Z.
Proof.
  repeat split.
  destruct fuel as [|fuel]; eexists; (split; [vm_compute; reflexivity|]);
    by vm_compute.
Qed.

(** C2, as stated, fails: no run of the scenario leaves B at 1. *)
Lemma scenario_B_not_corrected :
  ~ exists fuel s' updated,
      run scenario_update fuel scenario = Some (s', updated) /\
      waitTime s' entityB = 1%Z.
Proof.
  intros (fuel & s' & updated & Hrun & HB).
  destruct fuel as [|[|fuel]]; vm_compute in Hrun;
    [discriminate| |]; injection Hrun as <- <-; vm_compute in HB;
    discriminate.
Qed.

(** C4, as stated, fails: the lone entity, woken by the first [run()] and
    put at wait time 1, is woken again by the next [run()]. *)
Lemma lone_updated_again : ~ rests_for_a_run idle_update 1 lone.
Proof.
  intros H.
  eapply (H _ _ _ _ eq_refl eq_refl entityA); apply list_elem_of_here.
Qed.

(** C6, as stated, fails: with A(-2) and B(5) the minimum is -2, nothing is
    subtracted, and B, not updated, stays at 5 instead of 7. *)
Lemma overdue_survivor_unchanged : ~ survivor_minus_minimum three_update 2 overdue.
Proof.
  intros H.
  specialize (H _ _ (-2)%Z eq_refl).
  assert (is_min_waitTime overdue (-2)) as Hm.
  { exact (peek_is_min overdue entityA overdue_queue_ok eq_refl). }
  specialize (H Hm entityB). vm_compute in H.
  assert (5 = 7)%Z as Hbad; [|discriminate].
  apply H.
  - apply list_elem_of_further, list_elem_of_here.
  - intros Hin. apply list_elem_of_singleton in Hin. discriminate.
Qed.

(** C3, as stated, fails on a queue that holds an entity twice, since the
    loop subtracts once per slot of the array (3 becomes -3, not 0), and on
    a queue that is not a heap any more, since the wait time read at rank
    0 is then not the minimum. *)
Lemma minimum_not_subtracted_once :
  ~ reads_and_subtracts_minimum twice /\
  ~ reads_and_subtracts_minimum disordered.
Proof.
  split; intros H;
    destruct (H eq_refl ltac:(vm_compute; discriminate))
      as (first & Hpeek & Hmin & Hsub);
    vm_compute in Hpeek; injection Hpeek as <-.
  - specialize (Hsub ltac:(vm_compute; reflexivity) entityA
                  ltac:(apply list_elem_of_here)).
    vm_compute in Hsub. discriminate.
  - destruct Hmin as [_ Hmin].
    specialize (Hmin entityB
                  ltac:(apply list_elem_of_further, list_elem_of_here)).
    vm_compute in Hmin. by apply Hmin.
Qed.

(** C7, as stated, fails: A and B are tied at 0 after the decrement, the
    [update()] of A raises the wait time of B to 10, and the loop stops
    without updating B. *)
Lemma stunned_not_updated : ~ activates_all_eligible stun_update 2 tied.
Proof.
  intros H.
  specialize (H _ _ eq_refl entityB
                ltac:(apply list_elem_of_further, list_elem_of_here)
                ltac:(vm_compute; discriminate)).
  vm_compute in H. apply list_elem_of_singleton in H. discriminate.
Qed.

Lemma haste_update_no_insert : update_no_insert haste_update.
Proof.
  intros e s. unfold haste_update. by destruct (Nat.eqb e entityA).
Qed.

(** C8, as stated, fails: only A is at zero or less after the decrement,
    its [update()] brings the queued B to -1, and the loop updates both. *)
Lemma hasted_updated_beyond_eligible : ~ bounded_by_eligible haste_update 2 hasted.
Proof.
  intros H. specialize (H haste_update_no_insert _ _ eq_refl).
  vm_compute in H. lia.
Qed.

(** * The theorems at work on the scenarios *)

(** The lone entity, at wait time 0 after the decrement, is left at 0 by
    its [update()] and set to 1; B of the scenario is left at the 2 its
    [update()] gave it. *)
Lemma activation_enforces_waitTime_witness :
  waitTime (activate_one idle_update entityA (elapse lone)) entityA = 1%Z /\
  activate_one scenario_update entityB (elapse scenario)
    = scenario_update entityB
        (set_entities (elapse scenario)
           (snd (BinaryHeap.pop (score (elapse scenario))
                   (entities (elapse scenario))))).
Proof.
  split.
  - destruct (activation_enforces_waitTime idle_update 0 (elapse lone) []
                entityA) as (_ & H & _).
    + reflexivity.
    + vm_compute. discriminate.
    + apply H. vm_compute. discriminate.
  - destruct (activation_enforces_waitTime scenario_update 0
                (elapse scenario) [] entityB) as (_ & _ & H).
    + reflexivity.
    + vm_compute. discriminate.
    + apply H. vm_compute. reflexivity.
Defined.

Lemma run_subtracts_minimum_witness :
  exists first,
    BinaryHeap.peek (entities scenario) 0 = Some first /\
    is_min_waitTime scenario (waitTime scenario first) /\
    run scenario_update 1 scenario
      = option_map reinsert (activate scenario_update 1 (elapse scenario) []) /\
    entities (elapse scenario) = entities scenario /\
    forall e, waitTime (elapse scenario) e =
      if decide (0 < waitTime scenario first ∧ e ∈ entities scenario)%Z
      then (waitTime scenario e - waitTime scenario first)%Z
      else waitTime scenario e.
Proof.
  apply (run_subtracts_minimum scenario_update 1 scenario).
  - reflexivity.
  - vm_compute. discriminate.
  - exact scenario_queue_ok.
  - vm_compute. compute_done.
Defined.

Lemma run_updates_once_witness :
  exists s' updated,
    run three_update 2 tied = Some (s', updated) /\ NoDup updated.
Proof.
  apply (run_updates_once three_update 2 tied).
  - exact (keeps_queue_no_insert _ three_update_keeps_queue).
  - vm_compute. compute_done.
  - vm_compute. lia.
Defined.

Lemma run_noop_when_paused_or_empty_witness :
  (run scenario_update 0 (pause scenario) = Some (pause scenario, []) /\
   forall n, run_repeat scenario_update 0 n (pause scenario)
             = Some (pause scenario)) /\
  (run scenario_update 0 (fresh []) = Some (fresh [], []) /\
   forall n, run_repeat scenario_update 0 n (fresh []) = Some (fresh [])).
Proof.
  split.
  - apply (run_noop_when_paused_or_empty scenario_update 0 (pause scenario)).
    left. reflexivity.
  - apply (run_noop_when_paused_or_empty scenario_update 0 (fresh [])).
    right. reflexivity.
Defined.

Lemma run_survivor_waitTime_witness :
  exists s' updated,
    run scenario_update 3 scenario = Some (s', updated) /\
    forall e, e ∈ entities scenario -> e ∉ updated ->
      waitTime s' e =
        if (0 <? 1)%Z then (waitTime scenario e - 1)%Z
        else waitTime scenario e.
Proof.
  apply (run_survivor_waitTime scenario_update 3 scenario 1).
  - exact (keeps_queue_no_insert _ scenario_update_keeps_queue).
  - exact scenario_update_own_waitTime.
  - reflexivity.
  - exact scenario_queue_ok.
  - vm_compute. compute_done.
  - vm_compute. lia.
  - exact (peek_is_min scenario entityB scenario_queue_ok eq_refl).
Defined.

(** The two entities tied at 0 after the decrement are both updated by the
    one [run()] call. *)
Lemma run_activates_all_eligible_witness :
  exists s' updated,
    run three_update 2 tied = Some (s', updated) /\
    entityA ∈ updated /\ entityB ∈ updated /\
    waitTime s' entityA = 3%Z /\ waitTime s' entityB = 3%Z.
Proof.
  destruct (run_activates_all_eligible three_update 2 tied)
    as (s' & updated & Hrun & Hall & Htrace).
  - exact three_update_keeps_queue.
  - exact three_update_own_waitTime.
  - reflexivity.
  - exact tied_queue_ok.
  - vm_compute. compute_done.
  - vm_compute. lia.
  - exists s', updated. split; [exact Hrun|].
    assert (updated = [entityA; entityB]) as Hupd.
    { vm_compute in Hrun. by injection Hrun as _ <-. }
    split; [|split; [|split]].
    + apply Hall; [apply list_elem_of_here|]. vm_compute. discriminate.
    + apply Hall; [apply list_elem_of_further, list_elem_of_here|].
      vm_compute. discriminate.
    + rewrite Htrace, Hupd; [reflexivity|]. vm_compute. discriminate.
    + rewrite Htrace, Hupd; [reflexivity|]. vm_compute. discriminate.
Defined.

Lemma run_terminates_bounded_witness :
  exists s' updated,
    run scenario_update 3 scenario = Some (s', updated) /\
    length updated <= 3 /\
    length updated <= length (eligible (elapse scenario)).
Proof.
  destruct (run_terminates_bounded scenario_update 3 scenario)
    as (s' & updated & Hrun & Hsize & Hel).
  - exact (keeps_queue_no_insert _ scenario_update_keeps_queue).
  - vm_compute. lia.
  - exists s', updated. split; [exact Hrun|]. split; [exact Hsize|].
    apply Hel.
    + exact scenario_update_own_waitTime.
    + vm_compute. compute_done.
Defined.

Lemma run_preserves_entities_witness :
  exists s' updated,
    run scenario_update 3 scenario = Some (s', updated) /\
    entities s' ≡ₚ entities scenario /\
    length (entities s') = length (entities scenario) /\
    (forall e, e ∈ entities s' <-> e ∈ entities scenario) /\
    (forall e, e ∈ updated -> e ∈ entities s').
Proof.
  apply (run_preserves_entities scenario_update 3 scenario).
  - exact (keeps_queue_members _ scenario_update_keeps_queue).
  - vm_compute. lia.
Defined.

(** * More on [run()] and the other operations of the scheduler *)

Section RunMore.
Context {Env : Type} (update : TimedEntity -> @World Env -> @World Env).
Implicit Types s : @World Env.

(** The loop only adds to the list of updated entities. *)
Lemma activate_extends fuel : forall s updated s' updated',
  activate update fuel s updated = Some (s', updated') ->
  exists l, updated' = updated ++ l.
Proof.
  induction fuel as [|fuel IH]; intros s updated s' updated';
    cbn [activate];
    destruct (BinaryHeap.peek (entities s) 0) as [entity|];
    try destruct (waitTime s entity <=? 0)%Z; try done;
    try (intros [= <- <-]; exists []; by rewrite app_nil_r).
  intros H. apply IH in H as [l ->]. exists (entity :: l).
  by rewrite <- app_assoc.
Qed.

Lemma activate_one_raises entity s :
  (waitTime s entity < waitTime (activate_one update entity s) entity)%Z.
Proof.
  unfold activate_one. rewrite enforce_waitTime. cbn [set_entities waitTime].
  destruct (Z.leb_spec
    (waitTime (update entity (set_entities s
       (snd (BinaryHeap.pop (score s) (entities s))))) entity)
    (waitTime s entity)); cbn [set_entities waitTime] in *; lia.
Qed.

(** What one round keeps when updates leave the queue alone. *)
Lemma drain_step s0 w upd e :
  update_keeps_queue update -> update_own_waitTime update ->
  NoDup (entities s0) ->
  queue_ok w -> entities w ++ upd ≡ₚ entities s0 ->
  (forall x, x ∉ upd -> waitTime w x = waitTime s0 x) ->
  BinaryHeap.peek (entities w) 0 = Some e ->
  exists tl,
    entities w = e :: tl /\
    entities (activate_one update e w) ≡ₚ tl /\
    (e ∉ tl) /\ (e ∉ upd) /\
    (forall x, x <> e ->
       waitTime (activate_one update e w) x = waitTime w x) /\
    queue_ok (activate_one update e w).
Proof.
  intros Hkeep Hown Hnd Hok Hperm Hfr Hpeek.
  destruct (activate_one_step update w e Hpeek)
    as (tl & rest & Hw & Hrest & Hheap & Hent & Hwt).
  rewrite Hkeep in Hent. cbn [set_entities entities] in Hent.
  rewrite <- Hperm, Hw in Hnd.
  apply NoDup_app in Hnd as (Hnd & Hdis & _).
  apply NoDup_cons in Hnd as [Hetl _].
  exists tl. repeat split; [done|by rewrite Hent|done| | |].
  - apply Hdis, list_elem_of_here.
  - intros x Hx. by rewrite Hwt, Hown.
  - unfold queue_ok. rewrite Hent.
    apply (HeapFacts.heap_ok_ext (waitTime w)); [|by apply Hheap].
    intros x Hx. rewrite Hwt, Hown; [done| |];
      intros ->; apply Hetl; by rewrite <- Hrest.
Qed.

(** The loop on a well-formed queue: besides what [activate_drains] gives,
    the entities are updated by increasing wait time, and each ends above
    the wait time it had when the loop started. *)
Lemma activate_order s0 fuel s1 updated :
  update_keeps_queue update -> update_own_waitTime update ->
  NoDup (entities s0) -> queue_ok s0 ->
  activate update fuel s0 [] = Some (s1, updated) ->
  StronglySorted (waitTime_le s0) updated /\
  (forall x, x ∈ updated -> (waitTime s0 x < waitTime s1 x)%Z).
Proof.
  intros Hkeep Hown Hnd Hok0 Hact.
  apply (activate_inv update
    (fun w upd =>
       (queue_ok w /\ entities w ++ upd ≡ₚ entities s0 /\
        (forall x, x ∉ upd -> waitTime w x = waitTime s0 x)) /\
       (forall x y, x ∈ upd -> y ∈ entities w -> waitTime_le s0 x y) /\
       StronglySorted (waitTime_le s0) upd /\
       (forall x, x ∈ upd -> (waitTime s0 x < waitTime w x)%Z)))
    in Hact as [(_ & _ & Hsorted & Hup) _]; [done| |].
  - intros w upd e ((Hok & Hperm & Hfr) & Hlow & Hsorted & Hup) Hpeek Hle.
    destruct (drain_step s0 w upd e Hkeep Hown Hnd Hok Hperm Hfr Hpeek)
      as (tl & Hw & Hent & Hetl & Heupd & Hwt & Hok').
    assert (e ∈ entities w) as Hein by (rewrite Hw; apply list_elem_of_here).
    split; [|split; [|split]].
    + split; [done|]. split.
      * by apply step_members_perm; [intros ? ?; rewrite Hkeep|..].
      * by apply step_waitTime.
    + intros x y Hx Hy. rewrite Hent in Hy.
      assert (y ∈ entities w) as Hyin
        by (rewrite Hw; by apply list_elem_of_further).
      apply elem_of_app in Hx as [Hx|Hx]; [by apply Hlow|].
      apply list_elem_of_singleton in Hx as ->.
      assert (y ∉ upd) as Hyupd.
      { intros Hyupd. rewrite <- Hperm in Hnd.
        apply NoDup_app in Hnd as (_ & Hdis & _). by apply (Hdis y). }
      unfold waitTime_le. rewrite <- (Hfr e Heupd), <- (Hfr y Hyupd).
      by apply (HeapFacts.heap_ok_root_min _ _ _ Hok Hpeek).
    + apply StronglySorted_app_2; [|done|].
      * intros x1 x2 Hx1 Hx2. apply list_elem_of_singleton in Hx2 as ->.
        by apply Hlow.
      * repeat constructor.
    + intros x Hx. apply elem_of_app in Hx as [Hx|Hx].
      * rewrite Hwt; [by apply Hup|]. by intros ->.
      * apply list_elem_of_singleton in Hx as ->.
        rewrite <- Hfr by done. apply activate_one_raises.
  - rewrite app_nil_r. repeat split; try done.
    + intros x y Hx. by apply not_elem_of_nil in Hx.
    + constructor.
    + intros x Hx. by apply not_elem_of_nil in Hx.
Qed.

Lemma keeps_queue_adds_nothing :
  update_keeps_queue update -> update_no_insert update.
Proof. intros H e s. by rewrite H. Qed.

Lemma elapse_nonneg s :
  queue_ok s -> NoDup (entities s) ->
  (forall e, e ∈ entities s -> (0 <= waitTime s e)%Z) ->
  forall e, e ∈ entities s -> (0 <= waitTime (elapse s) e)%Z.
Proof.
  intros Hok Hnd Hpos e He.
  destruct (nonempty_peek s) as [first Hfirst].
  { intros E. rewrite E in He. by apply not_elem_of_nil in He. }
  rewrite (elapse_waitTime s first) by done.
  destruct (peek_is_min s first Hok Hfirst) as [_ Hmin].
  pose proof (Hmin e He). pose proof (Hpos e He).
  case_decide; lia.
Qed.

(** The run of a well-formed scheduler, taken apart once for the theorems
    below. *)
Lemma run_well_formed fuel s :
  update_keeps_queue update -> update_own_waitTime update ->
  paused s = false -> entities s <> [] ->
  queue_ok s -> NoDup (entities s) ->
  length (entities s) <= fuel ->
  exists s1 updated,
    run update fuel s = Some (fst (reinsert (s1, updated)), updated) /\
    activate update fuel (elapse s) [] = Some (s1, updated) /\
    NoDup (entities (elapse s)) /\ queue_ok (elapse s) /\
    entities (elapse s) = entities s.
Proof.
  intros Hkeep Hown Hp Hne Hok Hnd Hlen.
  destruct (run_terminates update fuel s
              (keeps_queue_adds_nothing Hkeep) Hlen) as (s' & updated & Hrun).
  pose proof Hrun as Hrun'.
  apply run_Some in Hrun' as (s1 & Hact & ->); [|done..].
  destruct (elapse_frame s) as (Hel & _).
  exists s1, updated. repeat split; [done|done| |by apply elapse_queue_ok|done].
  by rewrite Hel.
Qed.

(** The entities updated by [run()] are exactly those of the queue whose
    wait time is zero or less after the decrement, each once. *)
Theorem run_updates_exactly_eligible fuel s :
  update_keeps_queue update -> update_own_waitTime update ->
  paused s = false -> entities s <> [] ->
  queue_ok s -> NoDup (entities s) ->
  length (entities s) <= fuel ->
  exists s' updated,
    run update fuel s = Some (s', updated) /\
    updated ≡ₚ eligible (elapse s).
Proof.
  intros Hkeep Hown Hp Hne Hok Hnd Hlen.
  destruct (run_well_formed fuel s Hkeep Hown Hp Hne Hok Hnd Hlen)
    as (s1 & updated & Hrun & Hact & Hnd0 & Hok0 & Hel).
  eexists _, updated. split; [exact Hrun|].
  destruct (activate_drains update _ _ _ _ Hkeep Hown Hnd0 Hok0 Hact)
    as (_ & Hperm & Hfr & Hpos).
  destruct (activate_survey update _ _ _ _
              (keeps_queue_adds_nothing Hkeep) Hown Hnd0 Hact)
    as (_ & _ & Hle).
  assert (NoDup updated) as Hndu.
  { rewrite <- Hperm in Hnd0. by apply NoDup_app in Hnd0 as (_ & _ & ?). }
  apply NoDup_Permutation; [done|by apply NoDup_filter|].
  intros x. unfold eligible. rewrite list_elem_of_filter. split.
  - intros Hx. split; [by apply Hle|].
    rewrite <- Hperm. apply elem_of_app. by right.
  - intros [Hx Hin].
    destruct (decide (x ∈ updated)) as [|Hout]; [done|].
    rewrite <- Hperm in Hin. apply elem_of_app in Hin as [Hin|?]; [|done].
    specialize (Hpos x Hin). rewrite Hfr in Hpos by done. lia.
Qed.

(** [run()] updates the entities by increasing wait time: no entity is
    updated before one that was due earlier. *)
Theorem run_updates_in_order fuel s :
  update_keeps_queue update -> update_own_waitTime update ->
  paused s = false -> entities s <> [] ->
  queue_ok s -> NoDup (entities s) ->
  length (entities s) <= fuel ->
  exists s' updated,
    run update fuel s = Some (s', updated) /\
    StronglySorted (waitTime_le (elapse s)) updated.
Proof.
  intros Hkeep Hown Hp Hne Hok Hnd Hlen.
  destruct (run_well_formed fuel s Hkeep Hown Hp Hne Hok Hnd Hlen)
    as (s1 & updated & Hrun & Hact & Hnd0 & Hok0 & Hel).
  eexists _, updated. split; [exact Hrun|].
  by destruct (activate_order _ _ _ _ Hkeep Hown Hnd0 Hok0 Hact).
Qed.

(** Every entity updated by [run()] comes out with a wait time above the
    one it had after the decrement, whatever its [update()] did. *)
Theorem run_raises_updated fuel s :
  update_keeps_queue update -> update_own_waitTime update ->
  paused s = false -> entities s <> [] ->
  queue_ok s -> NoDup (entities s) ->
  length (entities s) <= fuel ->
  exists s' updated,
    run update fuel s = Some (s', updated) /\
    forall e, e ∈ updated ->
      (waitTime (elapse s) e < waitTime s' e)%Z.
Proof.
  intros Hkeep Hown Hp Hne Hok Hnd Hlen.
  destruct (run_well_formed fuel s Hkeep Hown Hp Hne Hok Hnd Hlen)
    as (s1 & updated & Hrun & Hact & Hnd0 & Hok0 & Hel).
  exists (fst (reinsert (s1, updated))), updated. split; [exact Hrun|].
  cbn [reinsert fst snd set_entities waitTime].
  by destruct (activate_order _ _ _ _ Hkeep Hown Hnd0 Hok0 Hact).
Qed.

(** When no queued wait time is negative, [run()] leaves every queued wait
    time strictly positive: the next [run()] moves the clock forward. *)
Theorem run_leaves_positive fuel s :
  update_keeps_queue update -> update_own_waitTime update ->
  paused s = false ->
  queue_ok s -> NoDup (entities s) ->
  length (entities s) <= fuel ->
  (forall e, e ∈ entities s -> (0 <= waitTime s e)%Z) ->
  exists s' updated,
    run update fuel s = Some (s', updated) /\
    forall e, e ∈ entities s' -> (0 < waitTime s' e)%Z.
Proof.
  intros Hkeep Hown Hp Hok Hnd Hlen Hpos.
  destruct (decide (entities s = [])) as [He|Hne].
  { exists s, []. split; [apply run_noop; by right|].
    intros e Hin. rewrite He in Hin. by apply not_elem_of_nil in Hin. }
  destruct (run_well_formed fuel s Hkeep Hown Hp Hne Hok Hnd Hlen)
    as (s1 & updated & Hrun & Hact & Hnd0 & Hok0 & Hel).
  exists (fst (reinsert (s1, updated))), updated. split; [exact Hrun|].
  destruct (reinsert_frame (s1, updated)) as (_ & _ & _ & _ & Hre).
  cbn [fst snd] in Hre. setoid_rewrite Hre.
  cbn [reinsert fst snd set_entities waitTime].
  destruct (activate_drains update _ _ _ _ Hkeep Hown Hnd0 Hok0 Hact)
    as (_ & Hperm & _ & Hsurv).
  destruct (activate_order _ _ _ _ Hkeep Hown Hnd0 Hok0 Hact) as [_ Hup].
  intros e He. apply elem_of_app in He as [He|He]; [by apply Hsurv|].
  specialize (Hup e He).
  assert (e ∈ entities s) as Hin.
  { rewrite <- Hel, <- Hperm. apply elem_of_app. by right. }
  pose proof (elapse_nonneg s Hok Hnd Hpos e Hin). lia.
Qed.

(** [run()] keeps the queue a heap without duplicates, so the next
    [run()] finds it well formed again. *)
Theorem run_keeps_well_formed fuel s :
  update_keeps_queue update -> update_own_waitTime update ->
  queue_ok s -> NoDup (entities s) ->
  length (entities s) <= fuel ->
  exists s' updated,
    run update fuel s = Some (s', updated) /\
    queue_ok s' /\ NoDup (entities s') /\
    length (entities s') = length (entities s).
Proof.
  intros Hkeep Hown Hok Hnd Hlen.
  destruct (run_terminates update fuel s
              (keeps_queue_adds_nothing Hkeep) Hlen) as (s' & updated & Hrun).
  exists s', updated. split; [done|].
  destruct (run_keeps_queue_ok update fuel s s' updated Hkeep Hown Hok Hnd Hrun).
  repeat split; [done..|].
  destruct (run_cases update fuel s s' updated Hrun)
    as [[-> ->]|(Hp & Hne & s1 & Hact & ->)]; [done|].
  destruct (elapse_frame s) as (Hel & _).
  apply activate_drains in Hact as (_ & Hperm & _ & _);
    [|done|done|by rewrite Hel|by apply elapse_queue_ok].
  destruct (reinsert_frame (s1, updated)) as (_ & _ & _ & _ & ->).
  cbn [fst snd]. by rewrite Hperm, Hel.
Qed.

(** A [run()] that is not a no-op always updates something: the entity at
    rank 0 of the queue is updated, and before any other. *)
Theorem run_updates_rank0_first fuel s first :
  update_no_insert update ->
  paused s = false -> NoDup (entities s) ->
  BinaryHeap.peek (entities s) 0 = Some first ->
  length (entities s) <= fuel ->
  exists s' rest, run update fuel s = Some (s', first :: rest).
Proof.
  intros Hins Hp Hnd Hpeek Hlen.
  pose proof (lookup_lt_Some _ _ _ Hpeek) as Hpos.
  destruct fuel as [|fuel]; [lia|].
  rewrite run_unfold; [|done|by intros E; rewrite E in Hpeek].
  destruct (elapse_frame s) as (Hel & _).
  assert (BinaryHeap.peek (entities (elapse s)) 0 = Some first) as Hpeek0
    by by rewrite Hel.
  assert (waitTime (elapse s) first <= 0)%Z as Hdue.
  { rewrite (elapse_waitTime s first) by done.
    case_decide as Hc; [lia|].
    destruct (decide (0 < waitTime s first)%Z); [|lia].
    exfalso. apply Hc. split; [done|]. by eapply list_elem_of_lookup_2. }
  cbn [activate]. rewrite Hpeek0.
  destruct (Z.leb_spec (waitTime (elapse s) first) 0); [|lia].
  destruct (activate_terminates update Hins fuel
              (activate_one update first (elapse s)) ([] ++ [first]))
    as (s1 & updated & Hact).
  { destruct (activate_one_step update (elapse s) first Hpeek0)
      as (tl & rest & Hs & Hperm & _ & -> & _).
    pose proof (submseteq_length _ _
                  (Hins first (set_entities (elapse s) rest))) as H'.
    cbn [set_entities entities] in H'.
    rewrite <- Hel, Hs in Hlen. cbn [length] in Hlen.
    apply Permutation_length in Hperm. lia. }
  rewrite Hact. cbn [option_map].
  apply activate_extends in Hact as [l ->].
  eexists _, l. reflexivity.
Qed.

(** Whatever number of [run()] calls is made while the scheduler is
    paused, the [run()] that follows [resume()] is the [run()] there would
    have been without the pause. *)
Theorem pause_resume_run fuel s n :
  paused s = false ->
  exists held,
    run_repeat update fuel n (pause s) = Some held /\
    run update fuel (resume held) = run update fuel s.
Proof.
  intros Hp. exists (pause s). split.
  - induction n as [|n IH]; [done|].
    cbn [run_repeat]. rewrite run_noop; [done|by left].
  - destruct s as [w q p e]. cbn in Hp. by subst.
Qed.

(** [addAll] (and [add], the case of one entity) on a heap gives a heap
    that holds the entities queued before and the new ones, so that the
    entity [peek()] then gives has the smallest wait time of them all; no
    wait time and no flag is touched.  The queue is the binary heap
    modelled above. *)
Theorem addAll_keeps_heap (l : list TimedEntity) s :
  queue_ok s ->
  queue_ok (addAll l s) /\
  entities (addAll l s) ≡ₚ entities s ++ l /\
  waitTime (addAll l s) = waitTime s /\ paused (addAll l s) = paused s /\
  addAll l s = fold_left (fun w e => add e w) l s /\
  forall first e,
    BinaryHeap.peek (entities (addAll l s)) 0 = Some first ->
    e ∈ entities s ++ l -> (waitTime s first <= waitTime s e)%Z.
Proof.
  intros Hok.
  assert (queue_ok (addAll l s)) as Hok' by by apply HeapFacts.pushAll_ok.
  assert (entities (addAll l s) ≡ₚ entities s ++ l) as Hperm
    by apply HeapFacts.pushAll_Permutation.
  repeat split; [done..| |].
  - clear. revert s.
    induction l as [|e l IH]; intros s; [by destruct s|].
    cbn [fold_left]. rewrite <- IH. done.
  - intros first e Hfirst He. rewrite <- Hperm in He.
    by apply (HeapFacts.heap_ok_root_min _ _ _ Hok' Hfirst).
Qed.

End RunMore.

(** * Facts about positions *)

Module PositionFacts.
Import Position.

Lemma scan_cell this w h adjacents i :
  scan this w h adjacents i
    = adjacents ++ List.filter (on_mapb w h) (cell this i).
Proof.
  unfold scan, cell.
  destruct (TDX !! i) as [dx|], (TDY !! i) as [dy|];
    cbn [List.filter]; try (by rewrite app_nil_r).
  unfold on_mapb, shifted. cbn [x y fst snd].
  destruct ((0 <=? x this + dx)%Z && (x this + dx <? w)%Z);
    cbn [andb]; [|by rewrite app_nil_r].
  destruct ((0 <=? y this + dy)%Z && (y this + dy <? h)%Z);
    [done|by rewrite app_nil_r].
Qed.

Lemma scan_fold this w h l : forall adjacents,
  fold_left (scan this w h) l adjacents
    = adjacents ++ List.filter (on_mapb w h) (flat_map (cell this) l).
Proof.
  induction l as [|i l IH]; intros adjacents; cbn [fold_left flat_map].
  - by rewrite app_nil_r.
  - rewrite IH, scan_cell, List.filter_app, app_assoc. done.
Qed.

(** The loop keeps, in the order of the static arrays, the shifted cells
    that lie on the map. *)
Lemma getAdjacentCells_filter this w h diagonals :
  getAdjacentCells this w h diagonals
    = List.filter (on_mapb w h)
        (map (shifted this) (offsets (if diagonals then 8 else 4))).
Proof.
  unfold getAdjacentCells. rewrite scan_fold. cbn [app].
  by destruct diagonals.
Qed.

Lemma on_mapb_spec w h p : on_mapb w h p = true <-> on_map w h p.
Proof.
  unfold on_mapb, on_map.
  rewrite !andb_true_iff, !Z.leb_le, !Z.ltb_lt. tauto.
Qed.

Lemma elem_of_getAdjacentCells this w h diagonals q :
  q ∈ getAdjacentCells this w h diagonals <->
  on_map w h q /\
  exists d, d ∈ offsets (if diagonals then 8 else 4) /\ q = shifted this d.
Proof.
  rewrite getAdjacentCells_filter, list_elem_of_In, filter_In, on_mapb_spec.
  rewrite <- list_elem_of_In, list_elem_of_fmap. split.
  - intros [(d & -> & Hd) Hq]. split; [done|]. by exists d.
  - intros [Hq (d & Hd & ->)]. split; [|done]. by exists d.
Qed.

Lemma shifted_inj this d d' : shifted this d = shifted this d' -> d = d'.
Proof.
  destruct d as [a b], d' as [a' b']. unfold shifted. cbn [fst snd].
  intros [= Hx Hy]. f_equal; lia.
Qed.

Lemma offsets_NoDup len : NoDup (offsets len).
Proof.
  unfold offsets. eapply sublist_NoDup; [|apply sublist_take].
  vm_compute. compute_done.
Qed.

Ltac pick_offset :=
  repeat first [ apply list_elem_of_here | apply list_elem_of_further ].

Ltac split_offsets H :=
  unfold offsets in H; cbn [take zip zip_with TDX TDY] in H;
  repeat (apply elem_of_cons in H as [-> | H]);
  [..|by apply elem_of_nil in H].

Lemma touch_iff this w h q :
  q ∈ getAdjacentCells this w h true <-> on_map w h q /\ touches this q.
Proof.
  rewrite elem_of_getAdjacentCells. split.
  - intros [Hq (d & Hd & ->)]. split; [done|].
    destruct this as [px py].
    split_offsets Hd; unfold touches, shifted; cbn [x y fst snd];
      (split; [intros [= ? ?]|]; lia).
  - intros [Hq (Hne & Hx & Hy)]. split; [done|].
    destruct this as [px py], q as [qx qy]. cbn [x y] in *.
    assert (qx = px + -1 \/ qx = px + 0 \/ qx = px + 1)%Z
      as [-> | [-> | ->]] by lia;
    assert (qy = py + -1 \/ qy = py + 0 \/ qy = py + 1)%Z
      as [-> | [-> | ->]] by lia.
    5:{ exfalso. apply Hne. f_equal; lia. }
    all: eexists (_, _); (split; [|reflexivity]);
      unfold offsets; cbn [take zip zip_with TDX TDY]; pick_offset.
Qed.

Lemma share_side_iff this w h q :
  q ∈ getAdjacentCells this w h false <->
  on_map w h q /\ shares_side this q.
Proof.
  rewrite elem_of_getAdjacentCells. split.
  - intros [Hq (d & Hd & ->)]. split; [done|].
    split_offsets Hd; unfold shares_side, shifted; cbn [x y fst snd]; lia.
  - intros [Hq Hs]. split; [done|]. unfold shares_side in Hs.
    destruct this as [px py], q as [qx qy]. cbn [x y] in *.
    assert ((qx = px + -1 /\ qy = py + 0) \/ (qx = px + 1 /\ qy = py + 0) \/
            (qx = px + 0 /\ qy = py + -1) \/ (qx = px + 0 /\ qy = py + 1))%Z
      as [[-> ->] | [[-> ->] | [[-> ->] | [-> ->]]]] by lia.
    all: eexists (_, _); (split; [|reflexivity]);
      unfold offsets; cbn [take zip zip_with TDX TDY]; pick_offset.
Qed.

(** No cell is returned twice, and at most eight cells are returned, four
    without diagonals. *)
Theorem adjacent_cells_count this w h diagonals :
  NoDup (getAdjacentCells this w h diagonals) /\
  length (getAdjacentCells this w h diagonals)
    <= (if diagonals then 8 else 4).
Proof.
  rewrite getAdjacentCells_filter. split.
  - apply NoDup_ListNoDup, List.NoDup_filter, NoDup_ListNoDup.
    apply NoDup_fmap_2; [|apply offsets_NoDup].
    intros d d'. apply shifted_inj.
  - etransitivity; [apply List.filter_length_le|].
    rewrite length_map. unfold offsets. rewrite length_take.
    destruct diagonals; cbn; lia.
Qed.

(** Away from the border every neighbour is returned, in the order of the
    static arrays: left, right, up, down, then the four corners. *)
Theorem adjacent_cells_inside this w h diagonals :
  (1 <= x this <= w - 2)%Z -> (1 <= y this <= h - 2)%Z ->
  getAdjacentCells this w h diagonals
    = map (shifted this) (offsets (if diagonals then 8 else 4)) /\
  length (getAdjacentCells this w h diagonals)
    = (if diagonals then 8 else 4).
Proof.
  intros Hx Hy.
  assert (getAdjacentCells this w h diagonals
          = map (shifted this) (offsets (if diagonals then 8 else 4))) as ->.
  { rewrite getAdjacentCells_filter. apply forallb_filter_id.
    apply forallb_forall. intros q Hq. apply on_mapb_spec.
    apply list_elem_of_In, list_elem_of_fmap in Hq as (d & -> & Hd).
    unfold on_map.
    destruct diagonals; split_offsets Hd; unfold shifted;
      cbn [x y fst snd]; lia. }
  split; [done|]. rewrite length_map. by destruct diagonals.
Qed.

(** The cells returned without diagonals open the list returned with
    diagonals. *)
Theorem adjacent_cells_sides_first this w h :
  getAdjacentCells this w h false `prefix_of` getAdjacentCells this w h true.
Proof.
  unfold getAdjacentCells.
  change (seq 0 8) with (seq 0 4 ++ seq 4 4).
  rewrite fold_left_app, (scan_fold _ _ _ (seq 4 4)).
  by eexists.
Qed.

(** Being adjacent goes both ways between two cells of the map. *)
Theorem adjacent_cells_sym this w h diagonals q :
  on_map w h this ->
  q ∈ getAdjacentCells this w h diagonals ->
  this ∈ getAdjacentCells q w h diagonals.
Proof.
  intros Hthis. destruct diagonals.
  - rewrite !touch_iff. intros [_ (Hne & Hx & Hy)].
    split; [done|]. unfold touches. split; [congruence|lia].
  - rewrite !share_side_iff. unfold shares_side.
    intros [_ Hs]. split; [done|lia].
Qed.

(** A map without columns or without rows has no cell to return. *)
Theorem adjacent_cells_empty_map this w h diagonals :
  (w <= 0)%Z \/ (h <= 0)%Z ->
  getAdjacentCells this w h diagonals = [].
Proof.
  intros Hwh.
  destruct (getAdjacentCells this w h diagonals) as [|q l] eqn:E; [done|].
  assert (q ∈ getAdjacentCells this w h diagonals) as Hq
    by (rewrite E; apply list_elem_of_here).
  apply elem_of_getAdjacentCells in Hq as [[Hx Hy] _]. lia.
Qed.


(** With diagonals, the cells returned are exactly the cells of the map
    that touch the position by a side or a corner; the position itself is
    never among them. *)
Theorem adjacent_cells_touch this w h q :
  q ∈ getAdjacentCells this w h true <-> on_map w h q /\ touches this q.
Proof. apply touch_iff. Qed.

(** Without diagonals, the cells returned are exactly the cells of the map
    that share a side with the position. *)
Theorem adjacent_cells_share_side this w h q :
  q ∈ getAdjacentCells this w h false <->
  on_map w h q /\ shares_side this q.
Proof. apply share_side_iff. Qed.

End PositionFacts.

(** * Facts about the lights *)

Module LightsFacts.
Import Lights.

Lemma indexOf_None l actor : indexOf l actor = None <-> actor ∉ l.
Proof.
  induction l as [|a l IH]; cbn [indexOf].
  - split; [intros _; apply not_elem_of_nil|done].
  - rewrite not_elem_of_cons. destruct (Nat.eqb_spec a actor) as [->|Hne].
    + split; [done|]. by intros [? _].
    + destruct (indexOf l actor); cbn [option_map].
      * split; [done|]. intros [_ H]. by apply IH in H.
      * split; [|done]. intros _. split; [congruence|]. by apply IH.
Qed.

Lemma indexOf_Some l actor idx :
  indexOf l actor = Some idx -> l !! idx = Some actor.
Proof.
  revert idx. induction l as [|a l IH]; intros idx; cbn [indexOf]; [done|].
  destruct (Nat.eqb_spec a actor) as [->|Hne].
  - by intros [= <-].
  - destruct (indexOf l actor) as [i|]; cbn [option_map]; [|done].
    intros [= <-]. by apply IH.
Qed.

Lemma get_put lights mode l mode' :
  get (put lights mode l) mode'
    = if decide (mode' = mode) then l else get lights mode'.
Proof. by destruct mode, mode'. Qed.

(** Taking the first occurrence out of a list without duplicates takes the
    actor out and nobody else. *)
Lemma delete_indexOf l actor idx :
  NoDup l -> indexOf l actor = Some idx ->
  NoDup (delete idx l) /\
  forall b, b ∈ delete idx l <-> b ∈ l /\ b <> actor.
Proof.
  intros Hnd Hidx. apply indexOf_Some in Hidx.
  pose proof (delete_Permutation l idx actor Hidx) as Hperm.
  remember (delete idx l) as k eqn:Hk. clear Hk.
  rewrite Hperm in Hnd. apply NoDup_cons in Hnd as [Hout Hnd].
  split; [done|]. intros b. rewrite Hperm, elem_of_cons. split.
  - intros Hb. split; [by right|]. by intros ->.
  - intros [[->|Hb] Hne]; done.
Qed.

Lemma onLightOnoff_NoDup lights actor st :
  (forall m, NoDup (get lights m)) ->
  forall m, NoDup (get (onLightOnoff lights actor st) m).
Proof.
  intros Hnd m. unfold onLightOnoff.
  destruct (light st) as [mode|]; [|done].
  destruct (match activable st with Some a => a | None => true end);
    destruct (indexOf (get lights mode) actor) as [idx|] eqn:Hidx;
    try done; rewrite get_put; case_decide; try done.
  - apply NoDup_app. repeat split; [done| |apply NoDup_singleton].
    intros x Hx Hin. apply list_elem_of_singleton in Hin as ->.
    by apply indexOf_None in Hidx.
  - by apply (delete_indexOf _ actor).
Qed.

Lemma replay_NoDup_all events mode : NoDup (get (replay events) mode).
Proof.
  unfold replay.
  enough (forall lights, (forall m, NoDup (get lights m)) ->
            forall m, NoDup (get (fold_left
              (fun lights ev => onLightOnoff lights (fst ev) (snd ev))
              events lights) m)) as H.
  { apply H. intros []; apply NoDup_nil_2. }
  induction events as [|ev events IH]; intros lights Hnd m; [done|].
  cbn [fold_left]. by apply IH, onLightOnoff_NoDup.
Qed.

Lemma onLightOnoff_step lights actor st mode :
  light st = Some mode ->
  NoDup (get lights mode) ->
  (actor ∈ get (onLightOnoff lights actor st) mode <-> is_on st = true) /\
  (forall b, b <> actor ->
     (b ∈ get (onLightOnoff lights actor st) mode <-> b ∈ get lights mode)) /\
  (forall m, m <> mode ->
     get (onLightOnoff lights actor st) m = get lights m) /\
  onLightOnoff (onLightOnoff lights actor st) actor st
    = onLightOnoff lights actor st.
Proof.
  intros Hlight Hnd. unfold onLightOnoff, is_on. rewrite Hlight.
  destruct (match activable st with Some a => a | None => true end);
    destruct (indexOf (get lights mode) actor) as [idx|] eqn:Hidx.
  - rewrite Hidx. repeat split; try done.
    intros _. by eapply list_elem_of_lookup_2, indexOf_Some.
  - assert (indexOf (get lights mode ++ [actor]) actor <> None) as Hin.
    { rewrite indexOf_None. intros H. apply H, elem_of_app. right.
      apply list_elem_of_here. }
    rewrite !get_put, decide_True by done.
    destruct (indexOf (get lights mode ++ [actor]) actor); [|done].
    repeat split; try done.
    + intros _. apply elem_of_app. right. apply list_elem_of_here.
    + rewrite elem_of_app, list_elem_of_singleton. by intros [?|?].
    + intros Hb. apply elem_of_app. by left.
    + intros m Hm. rewrite get_put. by rewrite decide_False.
  - destruct (delete_indexOf _ actor idx Hnd Hidx) as [Hnd' Hmem].
    assert (indexOf (delete idx (get lights mode)) actor = None) as Hout.
    { apply indexOf_None. intros H. by apply Hmem in H as [_ ?]. }
    rewrite !get_put, decide_True by done. rewrite Hout.
    repeat split; try done.
    + intros Hin. by apply Hmem in Hin as [_ ?].
    + intros Hb. by apply Hmem in Hb as [? _].
    + intros Hb. by apply Hmem.
    + intros m Hm. rewrite get_put. by rewrite decide_False.
  - rewrite Hidx. repeat split; try done.
    intros Hin. by apply indexOf_None in Hidx.
Qed.

(** After any events, the actor of the last event is in the list of its
    render mode exactly when that event found its light on. *)
Theorem replay_last_event events actor st mode :
  light st = Some mode ->
  (actor ∈ get (replay (events ++ [(actor, st)])) mode <-> is_on st = true).
Proof.
  intros Hlight. unfold replay. rewrite fold_left_app. cbn [fold_left fst snd].
  apply onLightOnoff_step; [done|]. apply replay_NoDup_all.
Qed.

(** Whatever events the shader has received since it was built, no actor
    is twice in a list of lights. *)
Theorem replay_NoDup events mode : NoDup (get (replay events) mode).
Proof. apply replay_NoDup_all. Qed.

(** On a list without duplicates, after [onLightOnoff] the actor is in the
    list of its render mode exactly when its light is on; the other actors
    and the other list are left as they were, and receiving the same event
    again changes nothing. *)
Theorem onLightOnoff_tracks lights actor st mode :
  light st = Some mode ->
  NoDup (get lights mode) ->
  (actor ∈ get (onLightOnoff lights actor st) mode <-> is_on st = true) /\
  (forall b, b <> actor ->
     (b ∈ get (onLightOnoff lights actor st) mode <-> b ∈ get lights mode)) /\
  (forall m, m <> mode ->
     get (onLightOnoff lights actor st) m = get lights m) /\
  onLightOnoff (onLightOnoff lights actor st) actor st
    = onLightOnoff lights actor st.
Proof. apply onLightOnoff_step. Qed.

End LightsFacts.

(** * Facts about the light level *)

Module LightLevelFacts.
Import LightLevel.

(** An actor seen only in the field of view can be identified exactly on
    the cells whose light level is [LIGHT]; any other actor always can; and
    while there is no light map every cell is in darkness. *)
Theorem identify_iff_light {Color Intensity : Type}
    (falsy : Color -> bool) (computeIntensity : Color -> Intensity)
    (gt : Intensity -> Intensity -> bool) (threshold zero : Intensity)
    (cells : Z -> Z -> option Color) (fovOnly : bool) (x y : Z) :
  canIdentifyActor falsy computeIntensity gt threshold
      (Some cells) fovOnly x y
    = Some (negb fovOnly ||
            is_light (getCellLightLevel falsy computeIntensity gt threshold
                        zero (Some cells) x y)) /\
  getCellLightLevel falsy computeIntensity gt threshold zero None x y
    = DARKNESS /\
  canIdentifyActor falsy computeIntensity gt threshold None false x y
    = Some true.
Proof.
  repeat split. unfold canIdentifyActor, getCellLightLevel.
  destruct fovOnly; cbn [negb orb]; [|done].
  destruct (cells x y) as [lightCol|]; [|done].
  destruct (falsy lightCol); [done|].
  destruct (gt (computeIntensity lightCol) threshold); [done|].
  by destruct (gt (computeIntensity lightCol) zero).
Qed.

Section Clear.
Context {Color Intensity : Type}.
Variable falsy : Color -> bool.
Variable computeIntensity : Color -> Intensity.
Variable gt : Intensity -> Intensity -> bool.
Variable threshold zero : Intensity.
Variable black : Color.

Lemma clearColumn_read (n : nat) : forall cells x x' y',
  fold_left (fun cells y => write cells x (Z.of_nat y) black) (seq 0 n) cells
    x' y'
  = if decide (x' = x /\ 0 <= y' < Z.of_nat n)%Z then Some black
    else cells x' y'.
Proof.
  induction n as [|n IH]; intros cells x x' y'.
  - cbn [seq fold_left]. rewrite decide_False; [done|]. lia.
  - rewrite seq_S, fold_left_app. cbn [fold_left plus]. unfold write at 1.
    rewrite IH.
    destruct (Z.eqb_spec x' x) as [->|Hx];
      destruct (Z.eqb_spec y' (Z.of_nat n)) as [->|Hy]; cbn [andb].
    + rewrite decide_True; [done|]. lia.
    + repeat case_decide; try done; lia.
    + rewrite !decide_False; [done|lia|lia].
    + rewrite !decide_False; [done|lia|lia].
Qed.

Lemma clearLightmap_read (n : nat) h : forall cells x' y',
  fold_left (fun cells x => clearColumn black cells (Z.of_nat x) h)
    (seq 0 n) cells x' y'
  = if decide (0 <= x' < Z.of_nat n /\ 0 <= y' < h)%Z then Some black
    else cells x' y'.
Proof.
  induction n as [|n IH]; intros cells x' y'.
  - cbn [seq fold_left]. rewrite decide_False; [done|]. lia.
  - rewrite seq_S, fold_left_app. cbn [fold_left plus].
    unfold clearColumn at 1. rewrite clearColumn_read, IH.
    repeat case_decide; try done; lia.
Qed.

(** After [clearLightmap()] every cell of the map holds the 0 written and
    is in darkness, since 0 is falsy; the cells off the map keep what they
    held. *)
Theorem clearLightmap_darkens cells w h x y :
  falsy black = true ->
  (0 <= x < w)%Z -> (0 <= y < h)%Z ->
  clearLightmap black cells w h x y = Some black /\
  getCellLightLevel falsy computeIntensity gt threshold zero
    (Some (clearLightmap black cells w h)) x y = DARKNESS /\
  forall x' y', ~ (0 <= x' < w /\ 0 <= y' < h)%Z ->
    clearLightmap black cells w h x' y' = cells x' y'.
Proof.
  intros Hblack Hx Hy.
  assert (forall x' y', clearLightmap black cells w h x' y'
            = if decide (0 <= x' < w /\ 0 <= y' < h)%Z then Some black
              else cells x' y') as Hread.
  { intros x' y'. unfold clearLightmap. rewrite clearLightmap_read.
    repeat case_decide; try done; lia. }
  split; [|split].
  - rewrite Hread. by rewrite decide_True.
  - unfold getCellLightLevel. rewrite Hread, decide_True by done.
    by rewrite Hblack.
  - intros x' y' Hout. rewrite Hread. by rewrite decide_False.
Qed.

End Clear.

End LightLevelFacts.

(** * The further theorems at work *)

Lemma run_updates_exactly_eligible_witness :
  exists s' updated,
    run three_update 2 tied = Some (s', updated) /\
    updated ≡ₚ eligible (elapse tied).
Proof.
  apply (run_updates_exactly_eligible three_update 2 tied).
  - exact three_update_keeps_queue.
  - exact three_update_own_waitTime.
  - reflexivity.
  - vm_compute. discriminate.
  - exact tied_queue_ok.
  - vm_compute. compute_done.
  - vm_compute. lia.
Defined.

Lemma run_updates_in_order_witness :
  exists s' updated,
    run three_update 2 tied = Some (s', updated) /\
    StronglySorted (waitTime_le (elapse tied)) updated.
Proof.
  apply (run_updates_in_order three_update 2 tied).
  - exact three_update_keeps_queue.
  - exact three_update_own_waitTime.
  - reflexivity.
  - vm_compute. discriminate.
  - exact tied_queue_ok.
  - vm_compute. compute_done.
  - vm_compute. lia.
Defined.

Lemma run_raises_updated_witness :
  exists s' updated,
    run scenario_update 3 scenario = Some (s', updated) /\
    forall e, e ∈ updated ->
      (waitTime (elapse scenario) e < waitTime s' e)%Z.
Proof.
  apply (run_raises_updated scenario_update 3 scenario).
  - exact scenario_update_keeps_queue.
  - exact scenario_update_own_waitTime.
  - reflexivity.
  - vm_compute. discriminate.
  - exact scenario_queue_ok.
  - vm_compute. compute_done.
  - vm_compute. lia.
Defined.

Lemma scenario_nonneg e :
  e ∈ entities scenario -> (0 <= waitTime scenario e)%Z.
Proof.
  intros He. vm_compute in He.
  repeat (apply elem_of_cons in He as [-> | He]); try (vm_compute; discriminate).
  by apply elem_of_nil in He.
Qed.

Lemma run_leaves_positive_witness :
  exists s' updated,
    run scenario_update 3 scenario = Some (s', updated) /\
    forall e, e ∈ entities s' -> (0 < waitTime s' e)%Z.
Proof.
  apply (run_leaves_positive scenario_update 3 scenario).
  - exact scenario_update_keeps_queue.
  - exact scenario_update_own_waitTime.
  - reflexivity.
  - exact scenario_queue_ok.
  - vm_compute. compute_done.
  - vm_compute. lia.
  - exact scenario_nonneg.
Defined.

Lemma run_keeps_well_formed_witness :
  exists s' updated,
    run scenario_update 3 scenario = Some (s', updated) /\
    queue_ok s' /\ NoDup (entities s') /\
    length (entities s') = length (entities scenario).
Proof.
  apply (run_keeps_well_formed scenario_update 3 scenario).
  - exact scenario_update_keeps_queue.
  - exact scenario_update_own_waitTime.
  - exact scenario_queue_ok.
  - vm_compute. compute_done.
  - vm_compute. lia.
Defined.

Lemma run_updates_rank0_first_witness :
  exists s' rest,
    run scenario_update 3 scenario = Some (s', entityB :: rest).
Proof.
  apply (run_updates_rank0_first scenario_update 3 scenario entityB).
  - exact (keeps_queue_no_insert _ scenario_update_keeps_queue).
  - reflexivity.
  - vm_compute. compute_done.
  - reflexivity.
  - vm_compute. lia.
Defined.

Lemma pause_resume_run_witness :
  exists held,
    run_repeat scenario_update 3 5 (pause scenario) = Some held /\
    run scenario_update 3 (resume held) = run scenario_update 3 scenario.
Proof.
  apply (pause_resume_run scenario_update 3 scenario 5). reflexivity.
Defined.

Lemma addAll_keeps_heap_witness :
  queue_ok (addAll [entityA; entityB] (fresh [4; 2]%Z)) /\
  entities (addAll [entityA; entityB] (fresh [4; 2]%Z))
    ≡ₚ [] ++ [entityA; entityB].
Proof.
  destruct (addAll_keeps_heap [entityA; entityB] (fresh [4; 2]%Z))
    as (Hok & Hperm & _).
  - apply HeapFacts.heap_ok_nil.
  - split; [exact Hok|exact Hperm].
Defined.

Lemma adjacent_cells_touch_witness :
  Position.on_map 3 3 (Position.mkPosition 1 1) /\
  Position.touches (Position.mkPosition 0 0) (Position.mkPosition 1 1).
Proof.
  apply (PositionFacts.adjacent_cells_touch (Position.mkPosition 0 0) 3 3).
  vm_compute. PositionFacts.pick_offset.
Defined.

Lemma adjacent_cells_share_side_witness :
  Position.on_map 3 3 (Position.mkPosition 1 0) /\
  Position.shares_side (Position.mkPosition 0 0) (Position.mkPosition 1 0).
Proof.
  apply (PositionFacts.adjacent_cells_share_side
           (Position.mkPosition 0 0) 3 3).
  vm_compute. PositionFacts.pick_offset.
Defined.

Lemma adjacent_cells_inside_witness :
  Position.getAdjacentCells (Position.mkPosition 1 1) 3 3 true
    = map (Position.shifted (Position.mkPosition 1 1)) (Position.offsets 8) /\
  length (Position.getAdjacentCells (Position.mkPosition 1 1) 3 3 true) = 8.
Proof.
  apply (PositionFacts.adjacent_cells_inside
           (Position.mkPosition 1 1) 3 3 true); cbn; lia.
Defined.

Lemma adjacent_cells_sym_witness :
  Position.mkPosition 0 0
    ∈ Position.getAdjacentCells (Position.mkPosition 1 1) 3 3 true.
Proof.
  apply (PositionFacts.adjacent_cells_sym (Position.mkPosition 0 0) 3 3 true).
  - split; cbn; lia.
  - vm_compute. PositionFacts.pick_offset.
Defined.

Lemma adjacent_cells_empty_map_witness :
  Position.getAdjacentCells (Position.mkPosition 0 0) 0 5 true = [].
Proof.
  apply (PositionFacts.adjacent_cells_empty_map
           (Position.mkPosition 0 0) 0 5 true).
  left. lia.
Defined.


Lemma onLightOnoff_tracks_witness :
  3 ∈ Lights.get
        (Lights.onLightOnoff (Lights.mkLights [1; 2] [])
           3 (Lights.mkActorState (Some Lights.ADDITIVE) None))
        Lights.ADDITIVE.
Proof.
  destruct (LightsFacts.onLightOnoff_tracks (Lights.mkLights [1; 2] [])
              3 (Lights.mkActorState (Some Lights.ADDITIVE) None)
              Lights.ADDITIVE) as (H & _).
  - reflexivity.
  - cbn. compute_done.
  - apply H. reflexivity.
Defined.

Lemma replay_last_event_witness :
  ~ 1 ∈ Lights.get
          (Lights.replay
             ([(1, Lights.mkActorState (Some Lights.MAX) (Some true))] ++
              [(1, Lights.mkActorState (Some Lights.MAX) (Some false))]))
          Lights.MAX.
Proof.
  intros Hin.
  apply (LightsFacts.replay_last_event
           [(1, Lights.mkActorState (Some Lights.MAX) (Some true))]
           1 (Lights.mkActorState (Some Lights.MAX) (Some false))
           Lights.MAX) in Hin.
  - discriminate.
  - reflexivity.
Defined.

Lemma clearLightmap_darkens_witness :
  LightLevel.clearLightmap 0%Z (fun _ _ => Some 9%Z) 2 2 1 1 = Some 0%Z /\
  LightLevel.getCellLightLevel (Z.eqb 0) id Z.gtb 5%Z 0%Z
    (Some (LightLevel.clearLightmap 0%Z (fun _ _ => Some 9%Z) 2 2)) 1 1
    = LightLevel.DARKNESS.
Proof.
  destruct (LightLevelFacts.clearLightmap_darkens (Z.eqb 0) id Z.gtb 5%Z 0%Z
              0%Z (fun _ _ => Some 9%Z) 2 2 1 1) as (H1 & H2 & _).
  - reflexivity.
  - lia.
  - lia.
  - split; [exact H1|exact H2].
Defined.
